(** * Rate limiter core: algorithms, in-memory store and Express middleware

    A shallow embedding of the TypeScript rate limiter
    (backend/src/algorithms, backend/src/storage/memory-store.ts,
    backend/src/middleware/rate-limiter.ts) and the properties the
    specification states about it.

    Conventions of the embedding.
    - A JavaScript [number] that counts things or is a millisecond
      timestamp is a [Z]; a [number] that is a rate, an interval or a
      token amount is an exact rational [Q] ([Math.floor] is [Qfloor],
      [Math.ceil] is [Qceiling]).  Rounding of IEEE doubles is not
      modelled, nor are [NaN] and [Infinity]: the divisors ([windowMs],
      [maxRequests], the refill interval, the processing rate) are
      positive in every configuration of the data model.
    - [Date.now()] is called several times while one request is
      checked: by [checkLimit], by its helpers, and by the store inside
      each operation.  A [Clock] gives the readings of one invocation,
      one per call site; the pure steps of an algorithm take the reading
      [now] they compute with.  Inside one store operation the readings
      are one.
    - An [async] function is a state transformer on the store that either
      resolves with a value or rejects. *)

From Stdlib Require Import ZArith QArith Qround Qminmax Lia Lqa Bool.
From stdpp Require Import gmap strings list pretty.

Local Open Scope Z_scope.

(** ** JavaScript helpers *)

(** [a || d] on an optional number: [undefined] and [0] are falsy. *)
Definition orZ (o : option Z) (d : Z) : Z :=
  match o with
  | Some v => if v =? 0 then d else v
  | None => d
  end.

Definition orQ (o : option Q) (d : Q) : Q :=
  match o with
  | Some v => if Qeq_bool v 0 then d else v
  | None => d
  end.

Definition Qltb (x y : Q) : bool := negb (Qle_bool y x).

(** [now % windowMs]: the remainder takes the sign of the dividend. *)
Definition js_mod (a b : Z) : Z := Z.rem a b.

(** [Math.min(...xs)] on a non-empty array ([Infinity] on the empty one,
    which no caller below can reach). *)
Definition Math_min (xs : list Z) : Z :=
  match xs with
  | [] => 0
  | x :: r => foldr Z.min x r
  end.

(** ** Promises over a store *)

Inductive Outcome (S A : Type) : Type :=
  | Resolved (a : A) (s : S)
  | Rejected (s : S).
Arguments Resolved {S A} a s.
Arguments Rejected {S A} s.

Definition Async (S A : Type) : Type := S -> Outcome S A.

Definition resolve {S A} (a : A) : Async S A := fun s => Resolved a s.

Definition await {S A B} (m : Async S A) (k : A -> Async S B) : Async S B :=
  fun s =>
    match m s with
    | Resolved a s' => k a s'
    | Rejected s' => Rejected s'
    end.

Notation "'let*' x ':=' m 'in' k" := (await m (fun x => k))
  (at level 10, x name, m at level 100, k at level 200).

(** ** The clock *)

(** The readings of [Date.now()] during one check, numbered in the order
    of the calls (each algorithm says which is which). *)
Record Clock : Type := { reading : nat -> Z }.
Arguments reading _ _%_nat.

(** The clock that stands still at [t] while the request is checked. *)
Definition steady (t : Z) : Clock := {| reading := fun _ => t |}.

(** A single request at a standing clock. *)
Definition at_time (t : Z) (key : string) : Clock * string := (steady t, key).

(** ** types/index.ts *)

Inductive RateLimitAlgorithm : Type :=
  | TOKEN_BUCKET
  | LEAKING_BUCKET
  | FIXED_WINDOW
  | SLIDING_WINDOW_LOG
  | SLIDING_WINDOW_COUNTER.

Record RateLimitResult : Type := {
  allowed : bool;
  remaining : Q;
  resetTime : Z;
  limit : Z;
  retryAfter : option Z;
  currentCount : option Q
}.

Record RateLimitConfig : Type := {
  windowMs : Z;
  maxRequests : Z;
  algorithm : RateLimitAlgorithm;
  message : option string;
  statusCode : option Z;
  headers : option bool;
  bucketSize : option Z;
  refillRate : option Q;
  refillInterval : option Q;
  queueSize : option Z;
  processingRate : option Q
}.

Record TokenBucketState : Type := {
  tokens : Q;
  lastRefillTime : Z
}.

Record LeakingBucketState : Type := {
  queue : list Z;
  lastLeakTime : Z
}.

(** The [RateLimitStore] interface, as far as the algorithms call it
    ([set], [delete], [getTTL] and [reset] are not used by them).  Every
    operation takes the clock reading first. *)
Class RateLimitStore (S : Type) : Type := {
  increment : Z -> string -> Z -> Async S Z;
  get : Z -> string -> Async S (option Z);
  addTimestamp : Z -> string -> Z -> Z -> Async S unit;
  getTimestamps : Z -> string -> Z -> Async S (list Z);
  removeOldTimestamps : Z -> string -> Z -> Async S unit;
  getBucketState : Z -> string -> Async S (option TokenBucketState);
  setBucketState : Z -> string -> TokenBucketState -> Z -> Async S unit;
  getQueue : Z -> string -> Async S (option LeakingBucketState);
  setQueue : Z -> string -> LeakingBucketState -> Z -> Async S unit
}.

(** ** storage/memory-store.ts *)

Record StoredValue (T : Type) : Type := {
  value : T;
  expiresAt : Z
}.
Arguments value {T} _.
Arguments expiresAt {T} _.

Record MemoryStore : Type := {
  counters : gmap string (StoredValue Z);
  timestamps : gmap string (StoredValue (list Z));
  bucketStates : gmap string (StoredValue TokenBucketState);
  queueStates : gmap string (StoredValue LeakingBucketState)
}.

(** The maps hold objects that the algorithms receive by reference and
    update in place ([stored.value += 1], [state.tokens -= 1],
    [state.queue.push(now)]); every such update is followed by the write
    of the same object under the same key, so the store after a check is
    the one obtained by writing the updated value. *)

Module Memory.

Definition empty : MemoryStore :=
  {| counters := ∅; timestamps := ∅; bucketStates := ∅; queueStates := ∅ |}.

Definition isExpired {T} (now : Z) (stored : StoredValue T) : bool :=
  expiresAt stored <=? now.

(** [stored] when the key is present and not expired. *)
Definition live {T} (now : Z) (m : gmap string (StoredValue T)) (key : string)
  : option (StoredValue T) :=
  match m !! key with
  | Some stored => if isExpired now stored then None else Some stored
  | None => None
  end.

Definition with_counters (f : gmap string (StoredValue Z) -> gmap string (StoredValue Z))
    (s : MemoryStore) : MemoryStore :=
  {| counters := f (counters s); timestamps := timestamps s;
     bucketStates := bucketStates s; queueStates := queueStates s |}.

Definition with_timestamps
    (f : gmap string (StoredValue (list Z)) -> gmap string (StoredValue (list Z)))
    (s : MemoryStore) : MemoryStore :=
  {| counters := counters s; timestamps := f (timestamps s);
     bucketStates := bucketStates s; queueStates := queueStates s |}.

Definition with_bucketStates
    (f : gmap string (StoredValue TokenBucketState) -> gmap string (StoredValue TokenBucketState))
    (s : MemoryStore) : MemoryStore :=
  {| counters := counters s; timestamps := timestamps s;
     bucketStates := f (bucketStates s); queueStates := queueStates s |}.

Definition with_queueStates
    (f : gmap string (StoredValue LeakingBucketState) -> gmap string (StoredValue LeakingBucketState))
    (s : MemoryStore) : MemoryStore :=
  {| counters := counters s; timestamps := timestamps s;
     bucketStates := bucketStates s; queueStates := f (queueStates s) |}.

Definition increment (now : Z) (key : string) (windowMs : Z) : Async MemoryStore Z :=
  fun s =>
    match live now (counters s) key with
    | None =>
        Resolved 1
          (with_counters <[key := {| value := 1; expiresAt := now + windowMs |}]> s)
    | Some stored =>
        Resolved (value stored + 1)
          (with_counters
             <[key := {| value := value stored + 1; expiresAt := expiresAt stored |}]> s)
    end.

Definition get (now : Z) (key : string) : Async MemoryStore (option Z) :=
  fun s => Resolved (value <$> live now (counters s) key) s.

Definition set (now : Z) (key : string) (v : Z) (windowMs : Z) : Async MemoryStore unit :=
  fun s =>
    Resolved tt (with_counters <[key := {| value := v; expiresAt := now + windowMs |}]> s).

Definition getTTL (now : Z) (key : string) : Async MemoryStore Z :=
  fun s =>
    let expiry :=
      match counters s !! key with
      | Some c => Some (expiresAt c)
      | None =>
          match timestamps s !! key with
          | Some t => Some (expiresAt t)
          | None =>
              match bucketStates s !! key with
              | Some b => Some (expiresAt b)
              | None => expiresAt <$> queueStates s !! key
              end
          end
      end in
    match expiry with
    | Some e => Resolved (if e <=? now then 0 else e - now) s
    | None => Resolved 0 s
    end.

Definition addTimestamp (now : Z) (key : string) (timestamp windowMs : Z)
  : Async MemoryStore unit :=
  fun s =>
    match live now (timestamps s) key with
    | None =>
        Resolved tt
          (with_timestamps
             <[key := {| value := [timestamp]; expiresAt := now + windowMs |}]> s)
    | Some stored =>
        Resolved tt
          (with_timestamps
             <[key := {| value := value stored ++ [timestamp];
                         expiresAt := now + windowMs |}]> s)
    end.

Definition getTimestamps (now : Z) (key : string) (minTimestamp : Z)
  : Async MemoryStore (list Z) :=
  fun s =>
    match live now (timestamps s) key with
    | None => Resolved [] s
    | Some stored =>
        Resolved (List.filter (fun ts => minTimestamp <=? ts) (value stored)) s
    end.

Definition removeOldTimestamps (now : Z) (key : string) (minTimestamp : Z)
  : Async MemoryStore unit :=
  fun s =>
    match live now (timestamps s) key with
    | None => Resolved tt s
    | Some stored =>
        Resolved tt
          (with_timestamps
             <[key := {| value := List.filter (fun ts => minTimestamp <=? ts) (value stored);
                         expiresAt := expiresAt stored |}]> s)
    end.

Definition getBucketState (now : Z) (key : string)
  : Async MemoryStore (option TokenBucketState) :=
  fun s => Resolved (value <$> live now (bucketStates s) key) s.

Definition setBucketState (now : Z) (key : string) (state : TokenBucketState) (ttlMs : Z)
  : Async MemoryStore unit :=
  fun s =>
    Resolved tt
      (with_bucketStates <[key := {| value := state; expiresAt := now + ttlMs |}]> s).

Definition getQueue (now : Z) (key : string)
  : Async MemoryStore (option LeakingBucketState) :=
  fun s => Resolved (value <$> live now (queueStates s) key) s.

Definition setQueue (now : Z) (key : string) (state : LeakingBucketState) (ttlMs : Z)
  : Async MemoryStore unit :=
  fun s =>
    Resolved tt
      (with_queueStates <[key := {| value := state; expiresAt := now + ttlMs |}]> s).

Definition delete (key : string) : Async MemoryStore unit :=
  fun s =>
    Resolved tt
      {| counters := base.delete key (counters s);
         timestamps := base.delete key (timestamps s);
         bucketStates := base.delete key (bucketStates s);
         queueStates := base.delete key (queueStates s) |}.

Definition reset : Async MemoryStore unit := fun _ => Resolved tt empty.

(** [cleanupExpired], run by the 60-second timer: [cleanMap] deletes the
    entries with [expiresAt <= now] from each of the four maps. *)
Definition cleanMap {T} (now : Z) (m : gmap string (StoredValue T))
  : gmap string (StoredValue T) :=
  filter (λ entry, ¬ (expiresAt entry.2 ≤ now)) m.

Definition cleanupExpired (now : Z) (s : MemoryStore) : MemoryStore :=
  {| counters := cleanMap now (counters s);
     timestamps := cleanMap now (timestamps s);
     bucketStates := cleanMap now (bucketStates s);
     queueStates := cleanMap now (queueStates s) |}.

End Memory.

#[export] Instance MemoryStore_RateLimitStore : RateLimitStore MemoryStore := {
  increment := Memory.increment;
  get := Memory.get;
  addTimestamp := Memory.addTimestamp;
  getTimestamps := Memory.getTimestamps;
  removeOldTimestamps := Memory.removeOldTimestamps;
  getBucketState := Memory.getBucketState;
  setBucketState := Memory.setBucketState;
  getQueue := Memory.getQueue;
  setQueue := Memory.setQueue
}.

(** ** algorithms/*.ts

    Each [checkLimit] is written as in the source: the reads from the
    store, the writes to it, and the decision record.  The arithmetic
    between the reads and the writes, and the construction of the record,
    are named so that the statements below can refer to them. *)

Section Algorithms.
Context {S : Type} {backend : RateLimitStore S}.

(** *** token-bucket.ts

    Readings: 0 by [checkLimit], 1 by the store in [getBucketState],
    2 by the store in [setBucketState]. *)

Definition TokenBucket_bucketSize (config : RateLimitConfig) : Z :=
  orZ (bucketSize config) (maxRequests config).
Definition TokenBucket_refillRate (config : RateLimitConfig) : Q :=
  orQ (refillRate config) 1%Q.
Definition TokenBucket_refillInterval (config : RateLimitConfig) : Q :=
  orQ (refillInterval config)
      (inject_Z (windowMs config) / inject_Z (maxRequests config))%Q.

(** Steps 2-3: default state, refill, cap. *)
Definition TokenBucket_refill (config : RateLimitConfig) (now : Z)
    (stored : option TokenBucketState) : TokenBucketState :=
  let bucketSize := TokenBucket_bucketSize config in
  let refillRate := TokenBucket_refillRate config in
  let refillInterval := TokenBucket_refillInterval config in
  let state :=
    match stored with
    | Some st => st
    | None => {| tokens := inject_Z bucketSize; lastRefillTime := now |}
    end in
  let timePassed := now - lastRefillTime state in
  let tokensToAdd :=
    (inject_Z (Qfloor (inject_Z timePassed / refillInterval)) * refillRate)%Q in
  {| tokens := Qmin (inject_Z bucketSize) (tokens state + tokensToAdd)%Q;
     lastRefillTime := if Qltb 0 tokensToAdd then now else lastRefillTime state |}.

(** Step 4: [allowed = state.tokens > 0], and the token taken. *)
Definition TokenBucket_consume (state : TokenBucketState) : bool * TokenBucketState :=
  let allowed := Qltb 0 (tokens state) in
  (allowed,
   if allowed
   then {| tokens := (tokens state - 1)%Q; lastRefillTime := lastRefillTime state |}
   else state).

(** Steps 6-7. *)
Definition TokenBucket_result (config : RateLimitConfig) (now : Z)
    (allowed : bool) (state : TokenBucketState) : RateLimitResult :=
  let bucketSize := TokenBucket_bucketSize config in
  let refillRate := TokenBucket_refillRate config in
  let refillInterval := TokenBucket_refillInterval config in
  let tokensNeeded := (inject_Z bucketSize - tokens state)%Q in
  let timeToFullMs := ((tokensNeeded / refillRate) * refillInterval)%Q in
  let resetTime := Qceiling ((inject_Z now + timeToFullMs) / 1000) in
  {| allowed := allowed;
     remaining := Qmax 0 (tokens state);
     resetTime := resetTime;
     limit := bucketSize;
     retryAfter := if allowed then None else Some (Qceiling (refillInterval / 1000));
     currentCount := Some (inject_Z bucketSize - tokens state)%Q |}.

Definition TokenBucket_checkLimit (config : RateLimitConfig) (clock : Clock)
    (key : string) : Async S RateLimitResult :=
  let now := reading clock 0 in
  let* stored := getBucketState (reading clock 1) key in
  let '(allowed, state) := TokenBucket_consume (TokenBucket_refill config now stored) in
  let* _ := setBucketState (reading clock 2) key state (windowMs config * 2) in
  resolve (TokenBucket_result config now allowed state).

(** *** leaking-bucket.ts

    Readings: 0 by [checkLimit], 1 by the store in [getQueue], 2 by the
    store in [setQueue]. *)

Definition LeakingBucket_queueSize (config : RateLimitConfig) : Z :=
  orZ (queueSize config) (maxRequests config).
Definition LeakingBucket_processingRate (config : RateLimitConfig) : Q :=
  orQ (processingRate config)
      (inject_Z (maxRequests config) / (inject_Z (windowMs config) / 1000))%Q.

(** Steps 2-4: default state and the leak ([slice] drops from the front). *)
Definition LeakingBucket_leak (config : RateLimitConfig) (now : Z)
    (stored : option LeakingBucketState) : LeakingBucketState :=
  let processingRate := LeakingBucket_processingRate config in
  let state :=
    match stored with
    | Some st => st
    | None => {| queue := []; lastLeakTime := now |}
    end in
  let timePassed := now - lastLeakTime state in
  let leakedCount := Qfloor ((inject_Z timePassed / 1000) * processingRate) in
  if 0 <? leakedCount
  then {| queue := drop (Z.to_nat leakedCount) (queue state); lastLeakTime := now |}
  else state.

(** Step 5: admission. *)
Definition LeakingBucket_admit (config : RateLimitConfig) (now : Z)
    (state : LeakingBucketState) : bool * LeakingBucketState :=
  let currentQueueSize := Z.of_nat (length (queue state)) in
  let allowed := currentQueueSize <? LeakingBucket_queueSize config in
  (allowed,
   if allowed
   then {| queue := queue state ++ [now]; lastLeakTime := lastLeakTime state |}
   else state).

(** Steps 7-8 ([resetTime] and [retryAfter] are assigned together in the
    two branches of step 7). *)
Definition LeakingBucket_result (config : RateLimitConfig) (now : Z)
    (allowed : bool) (state : LeakingBucketState) : RateLimitResult :=
  let queueSize := LeakingBucket_queueSize config in
  let processingRate := LeakingBucket_processingRate config in
  let len := Z.of_nat (length (queue state)) in
  let reset_retry : Z * option Z :=
    if negb allowed && (0 <? len)
    then
      let timePerRequest := (1000 / processingRate)%Q in
      (Qceiling ((inject_Z now + timePerRequest) / 1000),
       Some (Qceiling (timePerRequest / 1000)))
    else
      let timeToEmpty := ((inject_Z len / processingRate) * 1000)%Q in
      (Qceiling ((inject_Z now + timeToEmpty) / 1000), None) in
  {| allowed := allowed;
     remaining := inject_Z (queueSize - len);
     resetTime := reset_retry.1;
     limit := queueSize;
     retryAfter := reset_retry.2;
     currentCount := Some (inject_Z len) |}.

Definition LeakingBucket_checkLimit (config : RateLimitConfig) (clock : Clock)
    (key : string) : Async S RateLimitResult :=
  let now := reading clock 0 in
  let* stored := getQueue (reading clock 1) key in
  let '(allowed, state) :=
    LeakingBucket_admit config now (LeakingBucket_leak config now stored) in
  let* _ := setQueue (reading clock 2) key state (windowMs config * 2) in
  resolve (LeakingBucket_result config now allowed state).

(** *** fixed-window.ts

    Readings: 0 by [getWindowKey], 1 by the store in [increment], 2 by
    [getWindowResetTime], 3 by [checkLimit] for [retryAfter] (read only
    when the request is blocked). *)

(** [`${baseKey}:${windowStart}`] *)
Definition windowKey (baseKey : string) (windowStart : Z) : string :=
  baseKey +:+ ":" +:+ pretty windowStart.

Definition FixedWindow_getWindowKey (config : RateLimitConfig) (now : Z)
    (baseKey : string) : string :=
  let windowStart := now - js_mod now (windowMs config) in
  windowKey baseKey windowStart.

Definition FixedWindow_getWindowResetTime (config : RateLimitConfig) (now : Z) : Z :=
  let windowStart := now - js_mod now (windowMs config) in
  let windowEnd := windowStart + windowMs config in
  Qceiling (inject_Z windowEnd / 1000).

(** Steps 2-6: [resetTime] is what [getWindowResetTime] answered, [now]
    the reading taken afterwards for [retryAfter]. *)
Definition FixedWindow_result (config : RateLimitConfig) (resetTime now : Z)
    (currentCount : Z) : RateLimitResult :=
  let maxRequests := maxRequests config in
  let allowed := currentCount <=? maxRequests in
  let remaining := Z.max 0 (maxRequests - currentCount) in
  let retryAfter :=
    if allowed then None
    else Some (Qceiling (inject_Z (resetTime * 1000 - now) / 1000)) in
  {| allowed := allowed;
     remaining := inject_Z remaining;
     resetTime := resetTime;
     limit := maxRequests;
     retryAfter := retryAfter;
     currentCount := Some (inject_Z currentCount) |}.

Definition FixedWindow_checkLimit (config : RateLimitConfig) (clock : Clock)
    (key : string) : Async S RateLimitResult :=
  let windowKey := FixedWindow_getWindowKey config (reading clock 0) key in
  let* currentCount := increment (reading clock 1) windowKey (windowMs config) in
  let resetTime := FixedWindow_getWindowResetTime config (reading clock 2) in
  resolve (FixedWindow_result config resetTime (reading clock 3) currentCount).

(** *** sliding-window-log.ts

    Readings: 0 by [checkLimit], 1 by the store in [removeOldTimestamps],
    2 by the store in [getTimestamps], 3 by the store in [addTimestamp]. *)

(** Steps 4 and 6-8, from the timestamps read in step 3. *)
Definition SlidingWindowLog_result (config : RateLimitConfig) (now : Z)
    (timestamps : list Z) : RateLimitResult :=
  let windowMs := windowMs config in
  let maxRequests := maxRequests config in
  let currentCount := Z.of_nat (length timestamps) in
  let allowed := currentCount <? maxRequests in
  let remaining := Z.max 0 (maxRequests - currentCount - (if allowed then 1 else 0)) in
  let reset_retry : Z * option Z :=
    if negb allowed && (0 <? Z.of_nat (length timestamps))
    then
      let oldestTimestamp := Math_min timestamps in
      let whenOldestExpires := oldestTimestamp + windowMs in
      (Qceiling (inject_Z whenOldestExpires / 1000),
       Some (Z.max 1 (Qceiling (inject_Z (whenOldestExpires - now) / 1000))))
    else (Qceiling (inject_Z (now + windowMs) / 1000), None) in
  {| allowed := allowed;
     remaining := inject_Z remaining;
     resetTime := reset_retry.1;
     limit := maxRequests;
     retryAfter := reset_retry.2;
     currentCount := Some (inject_Z (currentCount + (if allowed then 1 else 0))) |}.

Definition SlidingWindowLog_checkLimit (config : RateLimitConfig) (clock : Clock)
    (key : string) : Async S RateLimitResult :=
  let now := reading clock 0 in
  let windowMs := windowMs config in
  let windowStart := now - windowMs in
  let* _ := removeOldTimestamps (reading clock 1) key windowStart in
  let* timestamps := getTimestamps (reading clock 2) key windowStart in
  let result := SlidingWindowLog_result config now timestamps in
  let* _ := (if allowed result
             then addTimestamp (reading clock 3) key now windowMs
             else resolve tt) in
  resolve result.

(** *** sliding-window-counter.ts

    Readings: 0 by [checkLimit] (not used), 1 by [getWindowKeys], 2 and 3
    by the store in the two [get]s, 4 by [getOverlapRatio], 5 by the
    store in [increment]. *)

Definition SlidingWindowCounter_getOverlapRatio (config : RateLimitConfig) (now : Z) : Q :=
  let positionInWindow := js_mod now (windowMs config) in
  (1 - inject_Z positionInWindow / inject_Z (windowMs config))%Q.

(** Steps 4-10, from the two counters read in step 2: [now] is the
    reading of [getWindowKeys], [now'] that of [getOverlapRatio]. *)
Definition SlidingWindowCounter_result (config : RateLimitConfig) (now now' : Z)
    (currentWindowCount previousWindowCount : Z) : RateLimitResult :=
  let windowMs := windowMs config in
  let maxRequests := maxRequests config in
  let windowStart := now - js_mod now windowMs in
  let overlapRatio := SlidingWindowCounter_getOverlapRatio config now' in
  let estimatedCount :=
    (inject_Z currentWindowCount + inject_Z previousWindowCount * overlapRatio)%Q in
  let allowed := Qfloor estimatedCount <? maxRequests in
  let remaining :=
    Z.max 0 (maxRequests - Qfloor estimatedCount - (if allowed then 1 else 0)) in
  let windowEnd := windowStart + windowMs in
  let resetTime := Qceiling (inject_Z windowEnd / 1000) in
  let retryAfter :=
    if allowed then None
    else
      let requestsOverLimit := Qfloor estimatedCount - maxRequests + 1 in
      let timePerRequest := (inject_Z windowMs / inject_Z maxRequests)%Q in
      Some (Z.max 1 (Qceiling ((inject_Z requestsOverLimit * timePerRequest) / 1000))) in
  {| allowed := allowed;
     remaining := inject_Z remaining;
     resetTime := resetTime;
     limit := maxRequests;
     retryAfter := retryAfter;
     currentCount := Some (inject_Z (Qfloor estimatedCount + (if allowed then 1 else 0))) |}.

Definition SlidingWindowCounter_checkLimit (config : RateLimitConfig) (clock : Clock)
    (key : string) : Async S RateLimitResult :=
  let windowMs := windowMs config in
  let now := reading clock 1 in
  let windowStart := now - js_mod now windowMs in
  let previousWindowStart := windowStart - windowMs in
  let currentKey := windowKey key windowStart in
  let previousKey := windowKey key previousWindowStart in
  let* cur := get (reading clock 2) currentKey in
  let* prev := get (reading clock 3) previousKey in
  let result :=
    SlidingWindowCounter_result config now (reading clock 4) (orZ cur 0) (orZ prev 0) in
  let* _ := (if allowed result
             then (let* _ := increment (reading clock 5) currentKey windowMs in resolve tt)
             else resolve tt) in
  resolve result.

(** *** middleware/rate-limiter.ts: [createRateLimiter] *)

Definition createRateLimiter (algorithm : RateLimitAlgorithm) (config : RateLimitConfig)
  : Clock -> string -> Async S RateLimitResult :=
  match algorithm with
  | TOKEN_BUCKET => TokenBucket_checkLimit config
  | LEAKING_BUCKET => LeakingBucket_checkLimit config
  | FIXED_WINDOW => FixedWindow_checkLimit config
  | SLIDING_WINDOW_LOG => SlidingWindowLog_checkLimit config
  | SLIDING_WINDOW_COUNTER => SlidingWindowCounter_checkLimit config
  end.

(** A history: requests [(clock, key)] served one after the other by one
    limiter.  The decisions come back in order ([None] for a check that
    rejected), with the store the last check left. *)
Fixpoint serve (checkLimit : Clock -> string -> Async S RateLimitResult)
    (requests : list (Clock * string)) (store : S)
  : list (option RateLimitResult) * S :=
  match requests with
  | [] => ([], store)
  | (clock, key) :: rest =>
      match checkLimit clock key store with
      | Resolved result store' =>
          let '(results, final) := serve checkLimit rest store' in
          (Some result :: results, final)
      | Rejected store' =>
          let '(results, final) := serve checkLimit rest store' in
          (None :: results, final)
      end
  end.

End Algorithms.

(** The clock never runs backwards from one check of a history to the
    next (on the readings the checks take themselves); the history starts
    at [t0]. *)
Fixpoint nondecreasing (t0 : Z) (requests : list (Clock * string)) : Prop :=
  match requests with
  | [] => True
  | (clock, _) :: rest => t0 ≤ reading clock 0 ∧ nondecreasing (reading clock 0) rest
  end.

(** ** middleware/rate-limiter.ts *)

Module Counts.
Record t : Type := {
  total : Z;
  allowed : Z;
  blocked : Z
}.
Definition zero : t := {| total := 0; allowed := 0; blocked := 0 |}.
End Counts.

#[export] Instance RateLimitAlgorithm_eq_dec : EqDecision RateLimitAlgorithm.
Proof. solve_decision. Defined.

Record RateLimiterStats : Type := {
  totalRequests : Z;
  allowedRequests : Z;
  blockedRequests : Z;
  uniqueKeys : Z;
  requestsByAlgorithm : RateLimitAlgorithm -> Counts.t
}.

(** The module-level [stats] object and [uniqueKeys] set. *)
Record Globals : Type := {
  stats : RateLimiterStats;
  uniqueKeySet : gset string
}.

Definition initialGlobals : Globals :=
  {| stats := {| totalRequests := 0; allowedRequests := 0; blockedRequests := 0;
                 uniqueKeys := 0; requestsByAlgorithm := fun _ => Counts.zero |};
     uniqueKeySet := ∅ |}.

(** The JSON body of a rejection; [resetTimeMs] is the argument of
    [new Date(...)], its ISO rendering is not modelled. *)
Record RejectionBody : Type := {
  body_error : string;
  body_retryAfter : option Z;
  body_limit : Z;
  body_remaining : Q;
  body_resetTimeMs : Z
}.

Record Response : Type := {
  res_headers : gmap string Q;
  res_status : option Z;
  res_json : option RejectionBody
}.

Definition freshResponse : Response :=
  {| res_headers := ∅; res_status := None; res_json := None |}.

Definition setHeader (name : string) (v : Q) (res : Response) : Response :=
  {| res_headers := <[name := v]> (res_headers res);
     res_status := res_status res; res_json := res_json res |}.

Definition setRateLimitHeaders (res : Response) (result : RateLimitResult) : Response :=
  let res := setHeader "X-RateLimit-Limit" (inject_Z (limit result)) res in
  let res := setHeader "X-RateLimit-Remaining" (remaining result) res in
  let res := setHeader "X-RateLimit-Reset" (inject_Z (resetTime result)) res in
  match retryAfter result with
  | Some r => setHeader "Retry-After" (inject_Z r) res
  | None => res
  end.

(** Step 4 of the middleware: the statistics update. *)
Definition bump (algo : RateLimitAlgorithm) (f : Counts.t -> Counts.t)
    (by_algo : RateLimitAlgorithm -> Counts.t) : RateLimitAlgorithm -> Counts.t :=
  fun a => if decide (a = algo) then f (by_algo a) else by_algo a.

Definition updateStats (algo : RateLimitAlgorithm) (result : RateLimitResult)
    (keys : gset string) (st : RateLimiterStats) : RateLimiterStats :=
  let by1 :=
    bump algo (fun c => {| Counts.total := Counts.total c + 1;
                           Counts.allowed := Counts.allowed c;
                           Counts.blocked := Counts.blocked c |})
         (requestsByAlgorithm st) in
  if allowed result
  then {| totalRequests := totalRequests st + 1;
          allowedRequests := allowedRequests st + 1;
          blockedRequests := blockedRequests st;
          uniqueKeys := Z.of_nat (size keys);
          requestsByAlgorithm :=
            bump algo (fun c => {| Counts.total := Counts.total c;
                                   Counts.allowed := Counts.allowed c + 1;
                                   Counts.blocked := Counts.blocked c |}) by1 |}
  else {| totalRequests := totalRequests st + 1;
          allowedRequests := allowedRequests st;
          blockedRequests := blockedRequests st + 1;
          uniqueKeys := Z.of_nat (size keys);
          requestsByAlgorithm :=
            bump algo (fun c => {| Counts.total := Counts.total c;
                                   Counts.allowed := Counts.allowed c;
                                   Counts.blocked := Counts.blocked c + 1 |}) by1 |}.

Definition resetStats (g : Globals) : Globals :=
  {| stats := {| totalRequests := 0; allowedRequests := 0; blockedRequests := 0;
                 uniqueKeys := 0; requestsByAlgorithm := fun _ => Counts.zero |};
     uniqueKeySet := ∅ |}.

(** What one invocation of the middleware leaves behind. *)
Record Handled (S : Type) : Type := {
  h_store : S;
  h_globals : Globals;
  h_res : Response;
  h_next : bool
}.
Arguments h_store {S} _.
Arguments h_globals {S} _.
Arguments h_res {S} _.
Arguments h_next {S} _.

Section Middleware.
Context {S : Type} {backend : RateLimitStore S}.
Context {Request : Type}.
(** [config.keyGenerator || defaultKeyGenerator] *)
Variable keyGenerator : Request -> string.

Definition createRateLimiterMiddleware (config : RateLimitConfig)
    (clock : Clock) (req : Request) (res : Response) (store : S) (g : Globals)
  : Handled S :=
  let rateLimiter := createRateLimiter (algorithm config) config in
  let key := keyGenerator req in
  let keys := {[key]} ∪ uniqueKeySet g in
  match rateLimiter clock key store with
  | Resolved result store' =>
      let stats' := updateStats (algorithm config) result keys (stats g) in
      let g' := {| stats := stats'; uniqueKeySet := keys |} in
      let res :=
        match headers config with
        | Some false => res
        | _ => setRateLimitHeaders res result
        end in
      if negb (allowed result)
      then
        let statusCode := orZ (statusCode config) 429 in
        let message :=
          match message config with
          | Some m => if decide (m = "") then "Too Many Requests" else m
          | None => "Too Many Requests"
          end in
        {| h_store := store'; h_globals := g';
           h_res := {| res_headers := res_headers res;
                       res_status := Some statusCode;
                       res_json := Some {| body_error := message;
                                           body_retryAfter := retryAfter result;
                                           body_limit := limit result;
                                           body_remaining := remaining result;
                                           body_resetTimeMs := resetTime result * 1000 |} |};
           h_next := false |}
      else {| h_store := store'; h_globals := g'; h_res := res; h_next := true |}
  | Rejected store' =>
      (* catch (error) { console.error(...); next(); } *)
      {| h_store := store';
         h_globals := {| stats := stats g; uniqueKeySet := keys |};
         h_res := res; h_next := true |}
  end.

End Middleware.

(** Modelled from the spec: the backend of scenario S6, "configured to
    error on every call"; the repository has no such store.  It only
    serves as an instance on which [checkLimit] rejects. *)
Inductive BrokenStore : Type := Broken.

Definition BrokenStore_RateLimitStore : RateLimitStore BrokenStore := {|
  increment := fun _ _ _ s => Rejected s;
  get := fun _ _ s => Rejected s;
  addTimestamp := fun _ _ _ _ s => Rejected s;
  getTimestamps := fun _ _ _ s => Rejected s;
  removeOldTimestamps := fun _ _ _ s => Rejected s;
  getBucketState := fun _ _ s => Rejected s;
  setBucketState := fun _ _ _ _ s => Rejected s;
  getQueue := fun _ _ s => Rejected s;
  setQueue := fun _ _ _ _ s => Rejected s
|}.

(** ** The checks on the in-memory store *)

(** A clock whose readings during one check are all the same. *)
Definition stands_still (clock : Clock) : Prop :=
  ∀ i, reading clock i = reading clock 0.

(** What the sliding-window-log check gets back from [getTimestamps]
    (after its own pruning) when the clock stands still at [now]. *)
Definition SlidingWindowLog_seen (config : RateLimitConfig) (now : Z) (s : MemoryStore)
    (key : string) : list Z :=
  match Memory.live now (timestamps s) key with
  | Some stored => List.filter (fun ts => now - windowMs config <=? ts) (value stored)
  | None => []
  end.

(** The store that check leaves, the clock still standing at [now]. *)
Definition SlidingWindowLog_store_after (config : RateLimitConfig) (now : Z)
    (key : string) (s : MemoryStore) : MemoryStore :=
  let seen := SlidingWindowLog_seen config now s key in
  let result := SlidingWindowLog_result config now seen in
  match Memory.live now (timestamps s) key with
  | Some stored =>
      Memory.with_timestamps
        <[key := if allowed result
                 then {| value := seen ++ [now]; expiresAt := now + windowMs config |}
                 else {| value := seen; expiresAt := expiresAt stored |}]> s
  | None =>
      if allowed result
      then Memory.with_timestamps
             <[key := {| value := [now]; expiresAt := now + windowMs config |}]> s
      else s
  end.

(** The two counters the sliding-window-counter check reads. *)
Definition SlidingWindowCounter_read (config : RateLimitConfig) (clock : Clock)
    (key : string) (s : MemoryStore) : Z * Z :=
  let now := reading clock 1 in
  let windowStart := now - js_mod now (windowMs config) in
  (orZ (value <$> Memory.live (reading clock 2) (counters s)
                    (windowKey key windowStart)) 0,
   orZ (value <$> Memory.live (reading clock 3) (counters s)
                    (windowKey key (windowStart - windowMs config))) 0).


(** ** The statements of the specification *)

(** The invariant of the statistics record. *)
Definition stats_consistent (st : RateLimiterStats) : Prop :=
  totalRequests st = allowedRequests st + blockedRequests st
  ∧ ∀ id, Counts.total (requestsByAlgorithm st id)
          = Counts.allowed (requestsByAlgorithm st id)
            + Counts.blocked (requestsByAlgorithm st id).

(** The configuration ranges of the specification's data model, on the
    values each algorithm really uses (after its defaults). *)
Definition positive_parameters (config : RateLimitConfig) : Prop :=
  0 < windowMs config
  ∧ 1 ≤ maxRequests config
  ∧ 1 ≤ TokenBucket_bucketSize config
  ∧ (0 < TokenBucket_refillRate config)%Q
  ∧ (0 < TokenBucket_refillInterval config)%Q
  ∧ 1 ≤ LeakingBucket_queueSize config
  ∧ (0 < LeakingBucket_processingRate config)%Q.

(** [retryAfter] is present exactly on a blocked decision, and then at
    least one second. *)
Definition retryAfter_wellformed (r : RateLimitResult) : Prop :=
  (is_Some (retryAfter r) ↔ allowed r = false)
  ∧ ∀ v, retryAfter r = Some v → 1 ≤ v.

(** The formula of the specification's data-model invariant for the
    counter-based algorithms, on the fields of one decision record. *)
Definition remaining_as_specified (r : RateLimitResult) : option Q :=
  match currentCount r with
  | Some c => Some (Qmax 0 (inject_Z (limit r) - c - (if allowed r then 1 else 0)))%Q
  | None => None
  end.

(** What the decision record satisfies instead. *)
Definition remaining_from_reported_count (r : RateLimitResult) : Prop :=
  ∃ c, currentCount r = Some c ∧ (remaining r == Qmax 0 (inject_Z (limit r) - c))%Q.


(** The [remaining] the specification states for the token bucket. *)
Definition remaining_as_floor (tokens : Q) : Q := inject_Z (Z.max 0 (Qfloor tokens)).


(** A rational that is a whole number. *)
Definition is_integer (q : Q) : Prop := ∃ n : Z, (q == inject_Z n)%Q.

(** What holds of a token-bucket state at clock reading [t]: it was
    refilled no later than [t], holds at least -1 and at most
    [bucketSize] tokens, and a whole, non-negative number of them when the
    refill rate is whole. *)
Definition TokenBucket_state_ok (config : RateLimitConfig) (t : Z)
    (state : TokenBucketState) : Prop :=
  lastRefillTime state ≤ t
  ∧ (- (1) <= tokens state)%Q
  ∧ (tokens state <= inject_Z (TokenBucket_bucketSize config))%Q
  ∧ (is_integer (TokenBucket_refillRate config) →
     is_integer (tokens state) ∧ (0 <= tokens state)%Q).

(** Every stored bucket is in that condition. *)
Definition TokenBucket_invariant (config : RateLimitConfig) (t : Z) (s : MemoryStore)
  : Prop :=
  ∀ key stored,
    bucketStates s !! key = Some stored → TokenBucket_state_ok config t (value stored).

(** The clock readings of the checks for [key] that a history allowed. *)
Fixpoint allowed_times (key : string) (requests : list (Clock * string))
    (decisions : list (option RateLimitResult)) : list Z :=
  match requests, decisions with
  | (clock, k) :: rest, Some r :: ds =>
      if bool_decide (k = key) && allowed r
      then reading clock 0 :: allowed_times key rest ds
      else allowed_times key rest ds
  | _ :: rest, None :: ds => allowed_times key rest ds
  | _, _ => []
  end.

(** How many of [times] fall in the window [lo <= t < hi]. *)
Definition count_in (lo hi : Z) (times : list Z) : Z :=
  Z.of_nat (length (List.filter (fun t => (lo <=? t) && (t <? hi)) times)).

(** How many of [times] are at least [m]. *)
Definition count_from (m : Z) (times : list Z) : nat :=
  length (List.filter (fun t => m <=? t) times).

(** No window of [windowMs] milliseconds holds more than [maxRequests] of
    [times]. *)
Definition limit_respected (config : RateLimitConfig) (times : list Z) : Prop :=
  ∀ a, count_in a (a + windowMs config) times ≤ maxRequests config.

(** What relates the allowed checks so far ([times], the last check at
    clock reading [t]) to the timestamps kept for [key]: the entry outlives
    each of them by a window, and above [t - windowMs] it holds at least
    the allowed checks. *)
Definition SlidingWindowLog_invariant (config : RateLimitConfig) (key : string)
    (t : Z) (times : list Z) (s : MemoryStore) : Prop :=
  Forall (λ u, u ≤ t) times
  ∧ match timestamps s !! key with
    | None => times = []
    | Some stored =>
        Forall (λ u, u + windowMs config ≤ expiresAt stored) times
        ∧ ∀ m, t - windowMs config < m →
               (count_from m times ≤ count_from m (value stored))%nat
    end.

(** ** Configurations and scenarios *)

(** [createConfig] of config/rules.ts, on its three required options. *)
Definition createConfig (windowMs maxRequests : Z) (algorithm : RateLimitAlgorithm)
  : RateLimitConfig :=
  {| windowMs := windowMs; maxRequests := maxRequests; algorithm := algorithm;
     message := Some "Too Many Requests"; statusCode := Some 429; headers := Some true;
     bucketSize := None; refillRate := None; refillInterval := None;
     queueSize := None; processingRate := None |}.

(** The token-bucket limiter of the demo server (index.ts). *)
Definition tokenBucketDemo : RateLimitConfig :=
  {| windowMs := 10000; maxRequests := 10; algorithm := TOKEN_BUCKET;
     message := Some "Token Bucket: Rate limit exceeded";
     statusCode := Some 429; headers := Some true;
     bucketSize := Some 5; refillRate := Some 1%Q; refillInterval := Some 1000%Q;
     queueSize := None; processingRate := None |}.

(** Scenario S4 of the specification: a queue of three, one request leaks
    per second. *)
Definition leakingBucketDemo : RateLimitConfig :=
  {| windowMs := 10000; maxRequests := 10; algorithm := LEAKING_BUCKET;
     message := Some "Leaking Bucket: Rate limit exceeded";
     statusCode := Some 429; headers := Some true;
     bucketSize := None; refillRate := None; refillInterval := None;
     queueSize := Some 3; processingRate := Some 1%Q |}.

(** The fixed-window and sliding-window-counter limiters of the demo
    server (index.ts). *)
Definition fixedWindowDemo : RateLimitConfig := createConfig 10000 5 FIXED_WINDOW.

Definition slidingWindowCounterDemo : RateLimitConfig :=
  createConfig 10000 5 SLIDING_WINDOW_COUNTER.

(** Scenario S2 of the specification: five requests per ten seconds. *)
Definition slidingWindowLogDemo : RateLimitConfig :=
  createConfig 10000 5 SLIDING_WINDOW_LOG.

(** The demo server's token-bucket and leaking-bucket settings (index.ts)
    in one record, for any of the algorithms. *)
Definition demoConfig (algorithm : RateLimitAlgorithm) : RateLimitConfig :=
  {| windowMs := 10000; maxRequests := 10; algorithm := algorithm;
     message := Some "Rate limit exceeded";
     statusCode := Some 429; headers := Some true;
     bucketSize := Some 5; refillRate := Some 1%Q; refillInterval := Some 1000%Q;
     queueSize := Some 5; processingRate := Some 1%Q |}.

(** A bucket of two tokens that gains half a token per second. *)
Definition halfTokenBucket : RateLimitConfig :=
  {| windowMs := 10000; maxRequests := 10; algorithm := TOKEN_BUCKET;
     message := None; statusCode := None; headers := None;
     bucketSize := Some 2; refillRate := Some (1 # 2)%Q; refillInterval := Some 1000%Q;
     queueSize := None; processingRate := None |}.

(** The store of scenario S4 once three requests have filled the queue. *)
Definition fullQueue : MemoryStore :=
  (serve (LeakingBucket_checkLimit leakingBucketDemo)
     [at_time 0 "client"; at_time 0 "client"; at_time 0 "client"] Memory.empty).2.

(** Five requests at 9.9 s and five more at 10.1 s. *)
Definition scenarioS2 : list (Clock * string) :=
  [at_time 9900 "client"; at_time 9900 "client"; at_time 9900 "client";
   at_time 9900 "client"; at_time 9900 "client"; at_time 10100 "client";
   at_time 10100 "client"; at_time 10100 "client"; at_time 10100 "client";
   at_time 10100 "client"].

(** The values a run of [increment] calls on one key returns, with the
    store the last call left. *)
Fixpoint increment_all (key : string) (windowMs : Z) (times : list Z) (s : MemoryStore)
  : list Z * MemoryStore :=
  match times with
  | [] => ([], s)
  | now :: rest =>
      match Memory.increment now key windowMs s with
      | Resolved v s' =>
          let '(vs, final) := increment_all key windowMs rest s' in (v :: vs, final)
      | Rejected s' => ([], s')
      end
  end.

(** Two stores that every read at a clock reading [t] or later takes for
    the same. *)
Definition same_reads (t : Z) (s1 s2 : MemoryStore) : Prop :=
  ∀ now key, t ≤ now →
    Memory.live now (counters s1) key = Memory.live now (counters s2) key
    ∧ Memory.live now (timestamps s1) key = Memory.live now (timestamps s2) key
    ∧ Memory.live now (bucketStates s1) key = Memory.live now (bucketStates s2) key
    ∧ Memory.live now (queueStates s1) key = Memory.live now (queueStates s2) key.

(** * Properties *)

(** ** Arithmetic *)

Lemma Qltb_lt x y : Qltb x y = true ↔ (x < y)%Q.
Proof.
  unfold Qltb. rewrite negb_true_iff. split.
  - intros Hb. apply Qnot_le_lt. intros Hle. apply Qle_bool_iff in Hle. congruence.
  - intros Hlt. destruct (Qle_bool y x) eqn:E; [|reflexivity].
    apply Qle_bool_iff in E. exfalso. eapply Qlt_not_le; eauto.
Qed.

Lemma Qltb_ge x y : Qltb x y = false ↔ (y <= x)%Q.
Proof. unfold Qltb. rewrite negb_false_iff. apply Qle_bool_iff. Qed.

Lemma Qceiling_pos q : (0 < q)%Q → 1 ≤ Qceiling q.
Proof.
  intros Hq. pose proof (Qle_ceiling q) as Hc.
  assert (0 < inject_Z (Qceiling q))%Q as Hpos by (eapply Qlt_le_trans; eauto).
  change 0%Q with (inject_Z 0) in Hpos. rewrite <- Zlt_Qlt in Hpos. lia.
Qed.

Lemma Qdiv_pos a b : (0 < a)%Q → (0 < b)%Q → (0 < a / b)%Q.
Proof.
  intros Ha Hb. apply Qlt_shift_div_l; [exact Hb|]. by rewrite Qmult_0_l.
Qed.

Lemma Qceiling_div_1000_ge z : z ≤ Qceiling (inject_Z z / 1000) * 1000.
Proof.
  pose proof (Qle_ceiling (inject_Z z / 1000)) as Hc.
  apply (Qmult_le_compat_r _ _ 1000) in Hc; [|done].
  assert (inject_Z z / 1000 * 1000 == inject_Z z)%Q as E by (field).
  rewrite E in Hc.
  change 1000%Q with (inject_Z 1000) in Hc. rewrite <- inject_Z_mult in Hc.
  by rewrite <- Zle_Qle in Hc.
Qed.

Lemma window_end_after_now now w : 0 < w → now < now - js_mod now w + w.
Proof.
  intros Hw. unfold js_mod.
  pose proof (Z.rem_bound_abs now w ltac:(lia)). lia.
Qed.

Lemma inject_Z_max a b : (inject_Z (Z.max a b) == Qmax (inject_Z a) (inject_Z b))%Q.
Proof.
  destruct (Z.max_spec a b) as [[Hlt ->]|[Hle ->]].
  - symmetry. apply Q.max_r. rewrite <- Zle_Qle. lia.
  - symmetry. apply Q.max_l. by rewrite <- Zle_Qle.
Qed.

Lemma inject_Z_max0_minus a b :
  (inject_Z (Z.max 0 (a - b)) == Qmax 0 (inject_Z a - inject_Z b))%Q.
Proof.
  rewrite inject_Z_max. unfold Zminus. rewrite inject_Z_plus, inject_Z_opp. reflexivity.
Qed.

Lemma inject_Z_min a b : (inject_Z (Z.min a b) == Qmin (inject_Z a) (inject_Z b))%Q.
Proof.
  destruct (Z.min_spec a b) as [[Hlt ->]|[Hle ->]].
  - symmetry. apply Q.min_l. rewrite <- Zle_Qle. lia.
  - symmetry. apply Q.min_r. by rewrite <- Zle_Qle.
Qed.

Lemma is_integer_inject_Z n : is_integer (inject_Z n).
Proof. by exists n. Qed.

Lemma filter_filter_same {A} (f : A → bool) l :
  List.filter f (List.filter f l) = List.filter f l.
Proof.
  induction l as [|x l IH]; simpl; [done|].
  destruct (f x) eqn:E; simpl; rewrite ?E, IH; done.
Qed.

Lemma count_from_app m l1 l2 :
  count_from m (l1 ++ l2) = (count_from m l1 + count_from m l2)%nat.
Proof. unfold count_from. by rewrite List.filter_app, length_app. Qed.

Lemma count_from_anti m m' l : m ≤ m' → (count_from m' l ≤ count_from m l)%nat.
Proof.
  intros Hm. unfold count_from. induction l as [|x l IH]; simpl; [lia|].
  destruct (Z.leb_spec m' x), (Z.leb_spec m x); simpl; lia.
Qed.

Lemma count_from_filter m0 m l :
  m0 ≤ m → count_from m (List.filter (λ t, m0 <=? t) l) = count_from m l.
Proof.
  intros Hm. unfold count_from. induction l as [|x l IH]; simpl; [done|].
  destruct (Z.leb_spec m0 x), (Z.leb_spec m x); simpl;
    try destruct (Z.leb_spec m x); simpl; lia.
Qed.

Lemma count_from_length m l : (count_from m l ≤ length l)%nat.
Proof.
  unfold count_from. induction l as [|x l IH]; simpl; [lia|].
  destruct (m <=? x); simpl; lia.
Qed.

Lemma count_from_none m b l : Forall (λ u, u ≤ b) l → b < m → count_from m l = 0%nat.
Proof.
  intros Hl Hb. unfold count_from. induction Hl as [|x l Hx Hl IH]; simpl; [done|].
  destruct (Z.leb_spec m x); [lia | done].
Qed.

Lemma count_in_le_from lo hi l : count_in lo hi l ≤ Z.of_nat (count_from lo l).
Proof.
  unfold count_in, count_from. induction l as [|x l IH]; simpl; [lia|].
  destruct (Z.leb_spec lo x), (Z.ltb_spec x hi); simpl; lia.
Qed.

Lemma count_in_snoc lo hi l x :
  count_in lo hi (l ++ [x])
  = count_in lo hi l + (if (lo <=? x) && (x <? hi) then 1 else 0).
Proof.
  unfold count_in. rewrite List.filter_app, length_app. simpl.
  destruct ((lo <=? x) && (x <? hi)); simpl; lia.
Qed.

(** ** Live entries of the in-memory store *)

Lemma live_insert {T} now (m : gmap string (StoredValue T)) key sv :
  now < expiresAt sv → Memory.live now (<[key := sv]> m) key = Some sv.
Proof.
  intros Hlt. unfold Memory.live, Memory.isExpired. rewrite lookup_insert_eq.
  destruct (Z.leb_spec (expiresAt sv) now); [lia | done].
Qed.

Lemma live_Some {T} now (m : gmap string (StoredValue T)) key sv :
  Memory.live now m key = Some sv ↔ m !! key = Some sv ∧ now < expiresAt sv.
Proof.
  unfold Memory.live, Memory.isExpired. destruct (m !! key) as [x|].
  - destruct (Z.leb_spec (expiresAt x) now) as [Hle|Hlt].
    + split; [intros [=] | intros [[= <-] ?]; lia].
    + split; [intros [= <-]; done | intros [[= <-] ?]; done].
  - split; [intros [=] | intros [[=] ?]].
Qed.

Lemma live_lookup {T} now (m : gmap string (StoredValue T)) key sv :
  Memory.live now m key = Some sv → m !! key = Some sv.
Proof. intros Hl. by apply live_Some in Hl as [? _]. Qed.

Lemma live_None {T} now (m : gmap string (StoredValue T)) key :
  Memory.live now m key = None →
  m !! key = None ∨ ∃ sv, m !! key = Some sv ∧ expiresAt sv ≤ now.
Proof.
  unfold Memory.live, Memory.isExpired. destruct (m !! key) as [sv|]; [|by left].
  destruct (Z.leb_spec (expiresAt sv) now); [|done]. right. eauto.
Qed.

(** ** What a resolved [checkLimit] returned, on any backend *)

Section Inversion.
Context {S : Type} {backend : RateLimitStore S}.

Lemma TokenBucket_checkLimit_inv config clock key (s s' : S) r :
  TokenBucket_checkLimit config clock key s = Resolved r s' →
  ∃ stored,
    let now := reading clock 0 in
    let d := TokenBucket_consume (TokenBucket_refill config now stored) in
    r = TokenBucket_result config now d.1 d.2.
Proof.
  unfold TokenBucket_checkLimit, await, resolve. intros Hrun.
  destruct (getBucketState _ key s) as [stored s1|s1]; [|discriminate].
  exists stored.
  destruct (TokenBucket_consume _) as [a st].
  destruct (setBucketState _ _ _ _ _); [|discriminate]. by injection Hrun as <- <-.
Qed.

Lemma LeakingBucket_checkLimit_inv config clock key (s s' : S) r :
  LeakingBucket_checkLimit config clock key s = Resolved r s' →
  ∃ stored,
    let now := reading clock 0 in
    let d := LeakingBucket_admit config now (LeakingBucket_leak config now stored) in
    r = LeakingBucket_result config now d.1 d.2.
Proof.
  unfold LeakingBucket_checkLimit, await, resolve. intros Hrun.
  destruct (getQueue _ key s) as [stored s1|s1]; [|discriminate].
  exists stored.
  destruct (LeakingBucket_admit _ _ _) as [a st].
  destruct (setQueue _ _ _ _ _); [|discriminate]. by injection Hrun as <- <-.
Qed.

Lemma FixedWindow_checkLimit_inv config clock key (s s' : S) r :
  FixedWindow_checkLimit config clock key s = Resolved r s' →
  ∃ count,
    r = FixedWindow_result config
          (FixedWindow_getWindowResetTime config (reading clock 2)) (reading clock 3)
          count.
Proof.
  unfold FixedWindow_checkLimit, await, resolve. intros Hrun.
  destruct (increment _ _ _ _) as [count s1|s1]; [|discriminate].
  exists count. by injection Hrun as <- <-.
Qed.

Lemma SlidingWindowLog_checkLimit_inv config clock key (s s' : S) r :
  SlidingWindowLog_checkLimit config clock key s = Resolved r s' →
  ∃ timestamps, r = SlidingWindowLog_result config (reading clock 0) timestamps.
Proof.
  unfold SlidingWindowLog_checkLimit, await, resolve. intros Hrun.
  destruct (removeOldTimestamps _ _ _ _) as [[] s1|s1]; [|discriminate].
  destruct (getTimestamps _ _ _ _) as [ts s2|s2]; [|discriminate].
  exists ts.
  destruct (allowed (SlidingWindowLog_result config _ ts)).
  - destruct (addTimestamp _ _ _ _ _); [|discriminate]. by injection Hrun as <- <-.
  - by injection Hrun as <- <-.
Qed.

Lemma SlidingWindowCounter_checkLimit_inv config clock key (s s' : S) r :
  SlidingWindowCounter_checkLimit config clock key s = Resolved r s' →
  ∃ cur prev,
    r = SlidingWindowCounter_result config (reading clock 1) (reading clock 4) cur prev.
Proof.
  unfold SlidingWindowCounter_checkLimit, await, resolve. intros Hrun.
  destruct (get _ _ s) as [cur s1|s1]; [|discriminate].
  destruct (get _ _ s1) as [prev s2|s2]; [|discriminate].
  exists (orZ cur 0), (orZ prev 0).
  destruct (allowed (SlidingWindowCounter_result _ _ _ _ _)).
  - destruct (increment _ _ _ _); [|discriminate]. by injection Hrun as <- <-.
  - by injection Hrun as <- <-.
Qed.

End Inversion.

(** ** On the in-memory store every [checkLimit] resolves *)

Lemma Memory_TokenBucket_checkLimit config clock key (s : MemoryStore) :
  TokenBucket_checkLimit config clock key s =
    let now := reading clock 0 in
    let d := TokenBucket_consume
               (TokenBucket_refill config now
                  (value <$> Memory.live (reading clock 1) (bucketStates s) key)) in
    Resolved (TokenBucket_result config now d.1 d.2)
      (Memory.with_bucketStates
         <[key := {| value := d.2;
                     expiresAt := reading clock 2 + windowMs config * 2 |}]> s).
Proof.
  unfold TokenBucket_checkLimit, await, resolve, getBucketState, setBucketState,
    MemoryStore_RateLimitStore, Memory.getBucketState, Memory.setBucketState.
  by destruct (TokenBucket_consume _) as [a st].
Qed.

Lemma Memory_LeakingBucket_checkLimit config clock key (s : MemoryStore) :
  LeakingBucket_checkLimit config clock key s =
    let now := reading clock 0 in
    let d := LeakingBucket_admit config now
               (LeakingBucket_leak config now
                  (value <$> Memory.live (reading clock 1) (queueStates s) key)) in
    Resolved (LeakingBucket_result config now d.1 d.2)
      (Memory.with_queueStates
         <[key := {| value := d.2;
                     expiresAt := reading clock 2 + windowMs config * 2 |}]> s).
Proof.
  unfold LeakingBucket_checkLimit, await, resolve, getQueue, setQueue,
    MemoryStore_RateLimitStore, Memory.getQueue, Memory.setQueue.
  by destruct (LeakingBucket_admit _ _ _) as [a st].
Qed.

Lemma Memory_FixedWindow_checkLimit config clock key (s : MemoryStore) :
  FixedWindow_checkLimit config clock key s =
    match Memory.increment (reading clock 1)
            (FixedWindow_getWindowKey config (reading clock 0) key) (windowMs config) s with
    | Resolved count s' =>
        Resolved (FixedWindow_result config
                    (FixedWindow_getWindowResetTime config (reading clock 2))
                    (reading clock 3) count) s'
    | Rejected s' => Rejected s'
    end.
Proof. reflexivity. Qed.

Lemma Memory_SlidingWindowLog_resolves config clock key (s : MemoryStore) :
  ∃ ts s',
    SlidingWindowLog_checkLimit config clock key s
    = Resolved (SlidingWindowLog_result config (reading clock 0) ts) s'.
Proof.
  unfold SlidingWindowLog_checkLimit, await, resolve, removeOldTimestamps,
    getTimestamps, addTimestamp, MemoryStore_RateLimitStore,
    Memory.removeOldTimestamps, Memory.getTimestamps, Memory.addTimestamp.
  destruct (Memory.live (reading clock 1) (timestamps s) key);
    match goal with
    | |- context [Memory.live (reading clock 2) ?m key] =>
        destruct (Memory.live (reading clock 2) m key)
    end;
    destruct (allowed _); eauto;
    match goal with
    | |- context [Memory.live (reading clock 3) ?m key] =>
        destruct (Memory.live (reading clock 3) m key)
    end; eauto.
Qed.

(** While the clock stands still the check is a function of one reading. *)
Lemma Memory_SlidingWindowLog_checkLimit config clock key (s : MemoryStore) :
  stands_still clock →
  let now := reading clock 0 in
  SlidingWindowLog_checkLimit config clock key s =
    Resolved (SlidingWindowLog_result config now (SlidingWindowLog_seen config now s key))
      (SlidingWindowLog_store_after config now key s).
Proof.
  intros Hstill. unfold SlidingWindowLog_checkLimit.
  rewrite (Hstill 1%nat), (Hstill 2%nat), (Hstill 3%nat).
  generalize (reading clock 0). intros now. cbn zeta.
  unfold SlidingWindowLog_store_after, SlidingWindowLog_seen.
  unfold await, resolve, removeOldTimestamps,
    getTimestamps, addTimestamp, MemoryStore_RateLimitStore,
    Memory.removeOldTimestamps, Memory.getTimestamps, Memory.addTimestamp.
  destruct (Memory.live now (timestamps s) key) as [stored|] eqn:Hlive.
  - apply live_Some in Hlive as [Hlook Hexp].
    cbn [timestamps Memory.with_timestamps].
    rewrite live_insert by done. cbn [value expiresAt].
    rewrite filter_filter_same.
    destruct (allowed _); [|done].
    cbn [timestamps Memory.with_timestamps].
    rewrite live_insert by done. cbn [value expiresAt].
    f_equal. unfold Memory.with_timestamps. cbn. f_equal.
    apply insert_insert_eq.
  - rewrite Hlive. destruct (allowed _); [|done].
    by rewrite Hlive.
Qed.

Lemma Memory_SlidingWindowCounter_checkLimit config clock key (s : MemoryStore) :
  let '(cur, prev) := SlidingWindowCounter_read config clock key s in
  let result :=
    SlidingWindowCounter_result config (reading clock 1) (reading clock 4) cur prev in
  ∃ s', SlidingWindowCounter_checkLimit config clock key s = Resolved result s'.
Proof.
  unfold SlidingWindowCounter_read.
  unfold SlidingWindowCounter_checkLimit, await, resolve, get, increment,
    MemoryStore_RateLimitStore, Memory.get.
  destruct (allowed _); [|eauto].
  unfold Memory.increment. destruct (Memory.live _ _ _); eauto.
Qed.

Lemma Memory_checkLimit_resolves config clock key (s : MemoryStore) :
  ∃ r s', createRateLimiter (algorithm config) config clock key s = Resolved r s'.
Proof.
  destruct (algorithm config); simpl.
  - rewrite Memory_TokenBucket_checkLimit. eauto.
  - rewrite Memory_LeakingBucket_checkLimit. eauto.
  - rewrite Memory_FixedWindow_checkLimit. unfold Memory.increment.
    destruct (Memory.live _ _ _); eauto.
  - destruct (Memory_SlidingWindowLog_resolves config clock key s) as (ts & s' & ->).
    eauto.
  - pose proof (Memory_SlidingWindowCounter_checkLimit config clock key s) as Hc.
    destruct (SlidingWindowCounter_read config clock key s) as [cur prev].
    destruct Hc as [s' ->]. eauto.
Qed.

(** ** Histories *)

Section Histories.
Context {S : Type} {backend : RateLimitStore S}.
Variable checkLimit : Clock → string → Async S RateLimitResult.

Lemma serve_cons clock key rest (s : S) :
  serve checkLimit ((clock, key) :: rest) s =
    match checkLimit clock key s with
    | Resolved r s' =>
        (Some r :: (serve checkLimit rest s').1, (serve checkLimit rest s').2)
    | Rejected s' =>
        (None :: (serve checkLimit rest s').1, (serve checkLimit rest s').2)
    end.
Proof.
  simpl. destruct (checkLimit clock key s) as [r s'|s'];
    by destruct (serve checkLimit rest s').
Qed.


(** The same for an invariant that mentions the clock. *)
Lemma serve_clock_invariant (Inv : Z → S → Prop) :
  (∀ t clock key s, Inv t s → t ≤ reading clock 0 →
     match checkLimit clock key s with
     | Resolved _ s' => Inv (reading clock 0) s'
     | Rejected s' => Inv (reading clock 0) s'
     end) →
  ∀ requests t s, nondecreasing t requests → Inv t s →
    ∃ t', Inv t' (serve checkLimit requests s).2.
Proof.
  intros Hstep requests. induction requests as [|[clock key] rest IH]; intros t s Hmono Hs.
  - by exists t.
  - destruct Hmono as [Hle Hmono]. rewrite serve_cons.
    specialize (Hstep t clock key s Hs Hle).
    destruct (checkLimit clock key s) as [r s'|s']; simpl;
      by apply (IH (reading clock 0)).
Qed.

End Histories.

Lemma nondecreasing_take t n requests :
  nondecreasing t requests → nondecreasing t (take n requests).
Proof.
  revert t n. induction requests as [|[now key] rest IH]; intros t [|n]; simpl; try done.
  intros [Hle Hrest]. split; [done | by apply IH].
Qed.

(** ** The middleware and its statistics *)

Section MiddlewareFacts.
Context {S : Type} {backend : RateLimitStore S}.
Context {Request : Type}.
Variable keyGenerator : Request -> string.

Lemma updateStats_consistent algo result keys st :
  stats_consistent st → stats_consistent (updateStats algo result keys st).
Proof.
  intros [Htot Hby]. unfold updateStats, bump.
  destruct (allowed result); split; simpl; try lia;
    intros id; specialize (Hby id); destruct (decide (id = algo)); simpl; lia.
Qed.

(** C1. Fail-open: when the limiter's [checkLimit] rejects, the
    middleware calls [next], leaves the response (no [X-RateLimit-*],
    no [Retry-After], no status, no body) as it was, and leaves the
    whole statistics record, with every counter in it, unchanged. *)
Theorem middleware_fail_open config clock req res (store store' : S) g :
  createRateLimiter (algorithm config) config clock (keyGenerator req) store
    = Rejected store' →
  let h := createRateLimiterMiddleware keyGenerator config clock req res store g in
  h_next h = true
  ∧ h_res h = res
  ∧ (∀ name, res_headers (h_res h) !! name = res_headers res !! name)
  ∧ stats (h_globals h) = stats g
  ∧ totalRequests (stats (h_globals h)) = totalRequests (stats g)
  ∧ allowedRequests (stats (h_globals h)) = allowedRequests (stats g)
  ∧ blockedRequests (stats (h_globals h)) = blockedRequests (stats g)
  ∧ (∀ id, requestsByAlgorithm (stats (h_globals h)) id
           = requestsByAlgorithm (stats g) id).
Proof.
  intros Hthrow h. subst h. unfold createRateLimiterMiddleware.
  rewrite Hthrow. simpl. repeat split; reflexivity.
Qed.

(** C10. The statistics invariant (totals are the sum of allowed and
    blocked, globally and per algorithm) holds initially and is kept by
    every middleware invocation, whatever its outcome, and by
    [resetStats]. *)
Theorem stats_invariant_preserved config clock req res (store : S) g :
  stats_consistent (stats g) →
  stats_consistent (stats initialGlobals)
  ∧ stats_consistent
      (stats (h_globals
                (createRateLimiterMiddleware keyGenerator config clock req res store g)))
  ∧ stats_consistent (stats (resetStats g)).
Proof.
  intros Hg. split; [|split].
  - split; [reflexivity | intros; reflexivity].
  - unfold createRateLimiterMiddleware.
    destruct (createRateLimiter _ _ _ _ _) as [result store'|store']; simpl.
    + destruct (negb (allowed result)); simpl; by apply updateStats_consistent.
    + exact Hg.
  - split; [reflexivity | intros; reflexivity].
Qed.

End MiddlewareFacts.

Lemma middleware_fail_open_witness :
  let h := createRateLimiterMiddleware (backend := BrokenStore_RateLimitStore)
             (fun req : string => req) tokenBucketDemo
             (steady 0) "10.0.0.1" freshResponse Broken initialGlobals in
  h_next h = true
  ∧ h_res h = freshResponse
  ∧ (∀ name, res_headers (h_res h) !! name = res_headers freshResponse !! name)
  ∧ stats (h_globals h) = stats initialGlobals
  ∧ totalRequests (stats (h_globals h)) = totalRequests (stats initialGlobals)
  ∧ allowedRequests (stats (h_globals h)) = allowedRequests (stats initialGlobals)
  ∧ blockedRequests (stats (h_globals h)) = blockedRequests (stats initialGlobals)
  ∧ (∀ id, requestsByAlgorithm (stats (h_globals h)) id
           = requestsByAlgorithm (stats initialGlobals) id).
Proof.
  apply (middleware_fail_open (backend := BrokenStore_RateLimitStore)
           (fun req : string => req) tokenBucketDemo
           (steady 0) "10.0.0.1" freshResponse Broken Broken initialGlobals).
  reflexivity.
Defined.

Lemma stats_invariant_preserved_witness :
  stats_consistent (stats initialGlobals)
  ∧ stats_consistent
      (stats (h_globals (createRateLimiterMiddleware (fun req : string => req)
                           tokenBucketDemo (steady 0) "10.0.0.1" freshResponse
                           Memory.empty initialGlobals)))
  ∧ stats_consistent (stats (resetStats initialGlobals)).
Proof.
  apply (stats_invariant_preserved (fun req : string => req) tokenBucketDemo
           (steady 0) "10.0.0.1" freshResponse Memory.empty initialGlobals).
  split; [reflexivity | intros id; reflexivity].
Defined.

(** ** [increment] on the in-memory store *)


(** ** The [retryAfter] field *)

Lemma TokenBucket_result_retryAfter config now a st :
  (0 < TokenBucket_refillInterval config)%Q →
  retryAfter_wellformed (TokenBucket_result config now a st).
Proof.
  intros Hi. unfold retryAfter_wellformed, TokenBucket_result. cbn.
  destruct a; split.
  - split; [intros [? [=]] | done].
  - intros v [=].
  - split; [done | eauto].
  - intros v [= <-]. apply Qceiling_pos, Qdiv_pos; done.
Qed.

Lemma LeakingBucket_result_retryAfter config now st :
  1 ≤ LeakingBucket_queueSize config →
  (0 < LeakingBucket_processingRate config)%Q →
  let d := LeakingBucket_admit config now st in
  retryAfter_wellformed (LeakingBucket_result config now d.1 d.2).
Proof.
  intros Hq Hp. unfold retryAfter_wellformed, LeakingBucket_admit, LeakingBucket_result.
  cbn. destruct (Z.ltb_spec (Z.of_nat (length (queue st))) (LeakingBucket_queueSize config))
    as [Hlt|Hge]; cbn.
  - split; [split; [intros [? [=]] | done] | intros v [=]].
  - destruct (Z.ltb_spec 0 (Z.of_nat (length (queue st)))) as [Hpos|Hz]; [|lia]. cbn.
    split; [split; [done | eauto] |].
    intros v [= <-]. apply Qceiling_pos, Qdiv_pos; [|done].
    apply Qdiv_pos; done.
Qed.

Lemma Qceiling_pos_iff q : 1 ≤ Qceiling q ↔ (0 < q)%Q.
Proof.
  split; [|apply Qceiling_pos].
  intros Hc. apply Qnot_le_lt. intros Hq.
  pose proof (Qceiling_resp_le _ _ Hq) as Hle. change (Qceiling 0) with 0 in Hle. lia.
Qed.

(** The fixed window computes [retryAfter] from a reading of the clock
    taken after the reset time was computed, and does not raise it to 1:
    it is at least 1 exactly when that reading is before the reported
    reset time. *)
Lemma FixedWindow_result_retryAfter config resetTime now count :
  let r := FixedWindow_result config resetTime now count in
  (is_Some (retryAfter r) ↔ allowed r = false)
  ∧ ∀ v, retryAfter r = Some v → (1 ≤ v ↔ now < Z.mul (resetTime) 1000).
Proof.
  unfold FixedWindow_result. cbn.
  destruct (count <=? maxRequests config); split.
  - split; [intros [? [=]] | done].
  - intros v [=].
  - split; [done | eauto].
  - intros v [= <-]. rewrite Qceiling_pos_iff. split.
    + intros Hpos. apply (Qmult_lt_compat_r _ _ 1000) in Hpos; [|done].
      rewrite Qmult_0_l in Hpos.
      assert (inject_Z (resetTime * 1000 - now) / 1000 * 1000
              == inject_Z (resetTime * 1000 - now))%Q as E by field.
      rewrite E in Hpos. change 0%Q with (inject_Z 0) in Hpos.
      rewrite <- Zlt_Qlt in Hpos. lia.
    + intros Hlt. apply Qdiv_pos; [|done].
      change 0%Q with (inject_Z 0). rewrite <- Zlt_Qlt. lia.
Qed.

(** Read right after [getWindowResetTime], without a tick of the clock in
    between, it is before the reset time. *)
Lemma FixedWindow_resetTime_ahead config now :
  0 < windowMs config → now < FixedWindow_getWindowResetTime config now * 1000.
Proof.
  intros Hw. unfold FixedWindow_getWindowResetTime.
  pose proof (Qceiling_div_1000_ge (now - js_mod now (windowMs config) + windowMs config)).
  pose proof (window_end_after_now now (windowMs config) Hw). lia.
Qed.

Lemma SlidingWindowLog_result_retryAfter config now ts :
  1 ≤ maxRequests config →
  retryAfter_wellformed (SlidingWindowLog_result config now ts).
Proof.
  intros Hm. unfold retryAfter_wellformed, SlidingWindowLog_result.
  destruct (Z.ltb_spec (Z.of_nat (length ts)) (maxRequests config)) as [Hlt|Hge]; cbn.
  - split; [split; [intros [? [=]] | done] | intros v [=]].
  - destruct (Z.ltb_spec 0 (Z.of_nat (length ts))) as [Hpos|Hz]; [|lia]. cbn.
    split; [split; [done | eauto] |].
    intros v [= <-]. lia.
Qed.

Lemma SlidingWindowCounter_result_retryAfter config now now' cur prev :
  retryAfter_wellformed (SlidingWindowCounter_result config now now' cur prev).
Proof.
  unfold retryAfter_wellformed, SlidingWindowCounter_result. cbn.
  destruct (_ <? _); split.
  - split; [intros [? [=]] | done].
  - intros v [=].
  - split; [done | eauto].
  - intros v [= <-]. lia.
Qed.

Section AnyBackend.
Context {S : Type} {backend : RateLimitStore S}.

Lemma retryAfter_on_any_backend config clock key (s s' : S) r :
  positive_parameters config →
  createRateLimiter (algorithm config) config clock key s = Resolved r s' →
  (is_Some (retryAfter r) ↔ allowed r = false)
  ∧ ∀ v, retryAfter r = Some v →
      if decide (algorithm config = FIXED_WINDOW)
      then 1 ≤ v ↔ reading clock 3 < resetTime r * 1000
      else 1 ≤ v.
Proof.
  intros (Hw & Hm & Hb & Hr & Hi & Hq & Hp) Hrun.
  destruct (algorithm config); simpl in Hrun;
    (destruct (decide _) as [E|E]; [try discriminate E | try (by destruct E)]).
  - apply TokenBucket_checkLimit_inv in Hrun as [stored ->].
    by apply TokenBucket_result_retryAfter.
  - apply LeakingBucket_checkLimit_inv in Hrun as [stored ->].
    by apply LeakingBucket_result_retryAfter.
  - apply FixedWindow_checkLimit_inv in Hrun as [count ->].
    apply FixedWindow_result_retryAfter.
  - apply SlidingWindowLog_checkLimit_inv in Hrun as [ts ->].
    by apply SlidingWindowLog_result_retryAfter.
  - apply SlidingWindowCounter_checkLimit_inv in Hrun as (cur & prev & ->).
    by apply SlidingWindowCounter_result_retryAfter.
Qed.
End AnyBackend.

(** For each of the five algorithms, with the configuration in the ranges
    of the data model, a check on the in-memory store resolves with a
    decision whose [retryAfter] is present exactly when [allowed] is
    false.  For the token bucket, the leaking bucket and the two sliding
    windows it is then at least 1; for the fixed window it is at least 1
    exactly when the clock, read again for [retryAfter], is still before
    the reset time the decision reports. *)
Theorem retryAfter_present_iff_blocked config clock key (s : MemoryStore) :
  positive_parameters config →
  ∃ r s',
    createRateLimiter (algorithm config) config clock key s = Resolved r s'
    ∧ (is_Some (retryAfter r) ↔ allowed r = false)
    ∧ ∀ v, retryAfter r = Some v →
        if decide (algorithm config = FIXED_WINDOW)
        then 1 ≤ v ↔ reading clock 3 < resetTime r * 1000
        else 1 ≤ v.
Proof.
  intros Hcfg.
  destruct (Memory_checkLimit_resolves config clock key s) as (r & s' & Hrun).
  exists r, s'. split; [exact Hrun|].
  exact (retryAfter_on_any_backend config clock key s s' r Hcfg Hrun).
Qed.

Lemma retryAfter_present_iff_blocked_witness :
  ∃ r s',
    createRateLimiter (algorithm leakingBucketDemo) leakingBucketDemo
      (steady 0) "client" fullQueue = Resolved r s'
    ∧ (is_Some (retryAfter r) ↔ allowed r = false)
    ∧ ∀ v, retryAfter r = Some v →
        if decide (algorithm leakingBucketDemo = FIXED_WINDOW)
        then 1 ≤ v ↔ reading (steady 0) 3 < resetTime r * 1000
        else 1 ≤ v.
Proof.
  apply (retryAfter_present_iff_blocked leakingBucketDemo (steady 0) "client" fullQueue).
  unfold positive_parameters. cbn.
  split; [lia|]. split; [lia|]. split; [lia|]. split; [reflexivity|].
  split; [reflexivity|]. split; [lia | reflexivity].
Defined.

(** C7 (where the code departs from it).  A blocked fixed-window check
    whose clock ticks between [getWindowResetTime] and the reading taken
    for [retryAfter]: one request per ten seconds, a request at 0, and a
    second one that reads 9999 until the reset time is computed and 10000
    afterwards.  The second decision is blocked with [retryAfter = 0]; the
    two sliding-window limiters raise theirs with [Math.max(1, ...)]. *)
Theorem FixedWindow_retryAfter_zero :
  let config := createConfig 10000 1 FIXED_WINDOW in
  let ticking := {| reading := fun i => if (i <? 3)%nat then 9999 else 10000 |} in
  positive_parameters config
  ∧ ∃ results s' r,
      serve (createRateLimiter (algorithm config) config)
        [at_time 0 "client"; (ticking, "client")] Memory.empty = (results, s')
      ∧ results !! 1%nat = Some (Some r)
      ∧ allowed r = false
      ∧ resetTime r = 10
      ∧ retryAfter r = Some 0
      ∧ ¬ retryAfter_wellformed r.
Proof.
  cbv zeta. split.
  - unfold positive_parameters. cbn.
    split; [lia|]. split; [lia|]. split; [lia|]. split; [reflexivity|].
    split; [reflexivity|]. split; [lia | reflexivity].
  - eexists _, _, _. split; [vm_compute; reflexivity|].
    split; [reflexivity|]. split; [reflexivity|]. split; [reflexivity|].
    split; [reflexivity|].
    intros [_ Hone]. specialize (Hone 0 eq_refl). lia.
Qed.

(** ** The [remaining] field of the counter-based algorithms *)

Lemma FixedWindow_result_remaining config resetTime now count :
  remaining_from_reported_count (FixedWindow_result config resetTime now count).
Proof.
  unfold remaining_from_reported_count, FixedWindow_result.
  cbn [currentCount remaining limit].
  exists (inject_Z count). split; [reflexivity|]. apply inject_Z_max0_minus.
Qed.

Lemma SlidingWindowCounter_result_remaining config now now' cur prev :
  remaining_from_reported_count (SlidingWindowCounter_result config now now' cur prev).
Proof.
  unfold remaining_from_reported_count, SlidingWindowCounter_result.
  cbn [currentCount remaining limit].
  eexists. split; [reflexivity|].
  rewrite <- inject_Z_max0_minus.
  match goal with |- (inject_Z ?a == inject_Z ?b)%Q => replace a with b by lia end.
  reflexivity.
Qed.

(** C4 (as the code has it).  For the fixed window and the sliding window
    counter, the [remaining] of a decision is [max(0, limit - currentCount)]
    on the [limit] and [currentCount] of the same record: the reported
    count already includes the request when it was allowed, so nothing
    more is subtracted. *)
Theorem remaining_of_counter_algorithms config clock key (s : MemoryStore) :
  (∃ r s', FixedWindow_checkLimit config clock key s = Resolved r s'
           ∧ remaining_from_reported_count r)
  ∧ (∃ r s', SlidingWindowCounter_checkLimit config clock key s = Resolved r s'
             ∧ remaining_from_reported_count r).
Proof.
  split.
  - rewrite Memory_FixedWindow_checkLimit. unfold Memory.increment.
    destruct (Memory.live _ _ _); eexists _, _;
      (split; [reflexivity | apply FixedWindow_result_remaining]).
  - pose proof (Memory_SlidingWindowCounter_checkLimit config clock key s) as Hc.
    destruct (SlidingWindowCounter_read config clock key s) as [cur prev].
    destruct Hc as [s' ->]. eexists _, _.
    split; [reflexivity | apply SlidingWindowCounter_result_remaining].
Qed.

(** The first request under a limit of five: [remaining] is 4 and the
    reported [currentCount] is 1, where the formula of the specification
    gives 3. *)
Lemma remaining_as_specified_counterexample :
  (∃ r s' q,
     FixedWindow_checkLimit fixedWindowDemo (steady 0) "client" Memory.empty
       = Resolved r s'
     ∧ remaining_as_specified r = Some q
     ∧ (remaining r == 4)%Q ∧ (q == 3)%Q ∧ ¬ (remaining r == q)%Q)
  ∧ (∃ r s' q,
     SlidingWindowCounter_checkLimit slidingWindowCounterDemo (steady 0) "client"
       Memory.empty = Resolved r s'
     ∧ remaining_as_specified r = Some q
     ∧ (remaining r == 4)%Q ∧ (q == 3)%Q ∧ ¬ (remaining r == q)%Q).
Proof.
  split; eexists _, _, _; (split; [vm_compute; reflexivity|]);
    (split; [vm_compute; reflexivity|]); repeat split; try reflexivity; intros [=].
Qed.

(** ** The leaking bucket when it blocks *)





(** ** The token bucket's [limit] and [remaining] *)

Lemma TokenBucket_result_remaining config now a st :
  let r := TokenBucket_result config now a st in
  limit r = TokenBucket_bucketSize config
  ∧ remaining r = Qmax 0 (tokens st)
  ∧ (∀ z, (tokens st == inject_Z z)%Q → (remaining r == remaining_as_floor (tokens st))%Q).
Proof.
  cbn. split; [reflexivity|]. split; [reflexivity|].
  intros z Hz. unfold remaining_as_floor. rewrite inject_Z_max.
  rewrite Hz at 2. rewrite Qfloor_Z. rewrite Hz. reflexivity.
Qed.

(** C6 (as the code has it).  A token-bucket check reports
    [limit = bucketSize] and [remaining = max(0, tokens)] for the token
    count it has just stored; no [floor] is applied, and the value is
    [max(0, floor(tokens))] whenever that count is a whole number. *)
Theorem TokenBucket_limit_and_remaining config clock key (s : MemoryStore) :
  ∃ r s' stored,
    TokenBucket_checkLimit config clock key s = Resolved r s'
    ∧ bucketStates s' !! key = Some stored
    ∧ limit r = TokenBucket_bucketSize config
    ∧ remaining r = Qmax 0 (tokens (value stored))
    ∧ (∀ z, (tokens (value stored) == inject_Z z)%Q →
            (remaining r == remaining_as_floor (tokens (value stored)))%Q).
Proof.
  rewrite Memory_TokenBucket_checkLimit. cbn zeta.
  eexists _, _, _. split; [reflexivity|].
  split; [cbn; apply lookup_insert_eq|].
  cbn [value]. apply TokenBucket_result_remaining.
Qed.

(** Half a token per second: the check at [t = 1000] stores half a token
    and reports [remaining = 1/2], not 0. *)
Lemma remaining_as_floor_counterexample :
  ∃ results s' r stored,
    serve (TokenBucket_checkLimit halfTokenBucket)
      [at_time 0 "client"; at_time 1000 "client"] Memory.empty = (results, s')
    ∧ results !! 1%nat = Some (Some r)
    ∧ bucketStates s' !! "client" = Some stored
    ∧ (tokens (value stored) == 1 # 2)%Q
    ∧ (remaining r == 1 # 2)%Q
    ∧ (remaining_as_floor (tokens (value stored)) == 0)%Q
    ∧ ¬ (remaining r == remaining_as_floor (tokens (value stored)))%Q.
Proof.
  eexists _, _, _, _. split; [vm_compute; reflexivity|].
  split; [reflexivity|]. split; [vm_compute; reflexivity|].
  repeat split; try reflexivity. intros [=].
Qed.

(** ** The leaking bucket's queue *)






(** ** The token bucket's token count *)

Lemma TokenBucket_tokensToAdd_nonneg (timePassed : Z) (interval rate : Q) :
  0 ≤ timePassed → (0 < interval)%Q → (0 < rate)%Q →
  (0 <= inject_Z (Qfloor (inject_Z timePassed / interval)) * rate)%Q.
Proof.
  intros Ht Hi Hr. apply Qmult_le_0_compat; [|lra].
  change 0%Q with (inject_Z 0). rewrite <- Zle_Qle.
  change 0 with (Qfloor 0). apply Qfloor_resp_le.
  apply Qle_shift_div_l; [done|]. rewrite Qmult_0_l.
  change 0%Q with (inject_Z 0). by rewrite <- Zle_Qle.
Qed.

Lemma TokenBucket_refill_ok config t now stored :
  1 ≤ TokenBucket_bucketSize config →
  (0 < TokenBucket_refillRate config)%Q →
  (0 < TokenBucket_refillInterval config)%Q →
  t ≤ now →
  (∀ st, stored = Some st → TokenBucket_state_ok config t st) →
  TokenBucket_state_ok config now (TokenBucket_refill config now stored).
Proof.
  intros Hb Hr Hi Hle Hstored.
  set (state := match stored with
                | Some st => st
                | None => {| tokens := inject_Z (TokenBucket_bucketSize config);
                             lastRefillTime := now |}
                end).
  assert (lastRefillTime state ≤ now
          ∧ (- (1) <= tokens state)%Q
          ∧ (tokens state <= inject_Z (TokenBucket_bucketSize config))%Q
          ∧ (is_integer (TokenBucket_refillRate config) →
             is_integer (tokens state) ∧ (0 <= tokens state)%Q))
    as (Hlast & Hlow & Hhigh & Hint).
  { subst state. destruct stored as [st|].
    - destruct (Hstored st eq_refl) as (? & ? & ? & ?).
      split; [lia|]. split; [done|]. split; done.
    - cbn [tokens lastRefillTime]. split; [lia|].
      assert (1 <= inject_Z (TokenBucket_bucketSize config))%Q as Hb'.
      { change 1%Q with (inject_Z 1). by rewrite <- Zle_Qle. }
      split; [lra|]. split; [lra|]. intros _. split; [apply is_integer_inject_Z | lra]. }
  assert (1 <= inject_Z (TokenBucket_bucketSize config))%Q as Hb'.
  { change 1%Q with (inject_Z 1). by rewrite <- Zle_Qle. }
  pose proof (TokenBucket_tokensToAdd_nonneg (now - lastRefillTime state)
                (TokenBucket_refillInterval config) (TokenBucket_refillRate config)
                ltac:(lia) Hi Hr) as Hadd.
  unfold TokenBucket_refill. fold state.
  cbn zeta. set (add := (inject_Z _ * _)%Q) in *.
  unfold TokenBucket_state_ok. cbn [tokens lastRefillTime].
  split; [|split; [|split]].
  - destruct (Qltb 0 add); lia.
  - apply Q.min_glb; lra.
  - apply Q.le_min_l.
  - intros Hrate. destruct (Hint Hrate) as [[m Hm] Hnn]. destruct Hrate as [k Hk].
    split.
    + exists (Z.min (TokenBucket_bucketSize config)
                (m + Qfloor (inject_Z (now - lastRefillTime state)
                             / TokenBucket_refillInterval config) * k)).
      rewrite inject_Z_min. apply Q.min_compat; [reflexivity|].
      subst add. rewrite Hm, Hk, inject_Z_plus, inject_Z_mult. reflexivity.
    + apply Q.min_glb; lra.
Qed.

Lemma TokenBucket_consume_ok config now st :
  TokenBucket_state_ok config now st →
  TokenBucket_state_ok config now (TokenBucket_consume st).2.
Proof.
  intros (Hlast & Hlow & Hhigh & Hint). unfold TokenBucket_consume. cbn [snd].
  destruct (Qltb 0 (tokens st)) eqn:Hpos; [|done].
  apply Qltb_lt in Hpos. cbn [tokens lastRefillTime TokenBucket_state_ok].
  unfold TokenBucket_state_ok. cbn [tokens lastRefillTime].
  split; [done|]. split; [lra|]. split; [lra|].
  intros Hrate. destruct (Hint Hrate) as [[m Hm] _].
  assert (1 ≤ m) as Hm1.
  { rewrite Hm in Hpos. change 0%Q with (inject_Z 0) in Hpos.
    rewrite <- Zlt_Qlt in Hpos. lia. }
  split.
  - exists (m - 1). rewrite Hm. unfold Zminus. rewrite inject_Z_plus. reflexivity.
  - rewrite Hm. rewrite (Zle_Qle 1 m) in Hm1. change (inject_Z 1) with 1%Q in Hm1. lra.
Qed.

Lemma TokenBucket_check_invariant config t clock key (s : MemoryStore) :
  1 ≤ TokenBucket_bucketSize config →
  (0 < TokenBucket_refillRate config)%Q →
  (0 < TokenBucket_refillInterval config)%Q →
  TokenBucket_invariant config t s → t ≤ reading clock 0 →
  match TokenBucket_checkLimit config clock key s with
  | Resolved _ s' => TokenBucket_invariant config (reading clock 0) s'
  | Rejected s' => TokenBucket_invariant config (reading clock 0) s'
  end.
Proof.
  intros Hb Hr Hi Hs Hle. rewrite Memory_TokenBucket_checkLimit. cbn zeta.
  intros k stored. cbn [bucketStates Memory.with_bucketStates].
  destruct (decide (key = k)) as [<-|Hne].
  - rewrite lookup_insert_eq. intros Heq. apply (inj Some) in Heq. subst stored.
    cbn [value]. apply TokenBucket_consume_ok.
    apply (TokenBucket_refill_ok config t (reading clock 0)); try done.
    intros st Hst.
    destruct (Memory.live (reading clock 1) (bucketStates s) key) as [sv|] eqn:Hlive;
      [|discriminate].
    injection Hst as <-. apply live_lookup in Hlive. by apply (Hs key).
  - rewrite lookup_insert_ne by done. intros Hlook.
    destruct (Hs k stored Hlook) as (? & ? & ? & ?).
    split; [lia|]. split; [done|]. split; done.
Qed.

(** C3 (as the code has it).  With [bucketSize >= 1], a positive refill
    rate and interval and a clock that never runs backwards, from a store
    whose buckets are in order (the empty store is one), after every
    check of any history the stored token count of every key is at least
    -1 and at most [bucketSize]; it is in [0, bucketSize] when the refill
    rate is a whole number.  (The check consumes a token whenever
    [tokens > 0], so a fractional count below one goes negative.) *)
Theorem TokenBucket_tokens_bounded config requests t0 (s : MemoryStore) :
  1 ≤ TokenBucket_bucketSize config →
  (0 < TokenBucket_refillRate config)%Q →
  (0 < TokenBucket_refillInterval config)%Q →
  nondecreasing t0 requests →
  TokenBucket_invariant config t0 s →
  TokenBucket_invariant config t0 Memory.empty
  ∧ ∀ n key stored,
      bucketStates (serve (TokenBucket_checkLimit config) (take n requests) s).2 !! key
        = Some stored →
      (- (1) <= tokens (value stored))%Q
      ∧ (tokens (value stored) <= inject_Z (TokenBucket_bucketSize config))%Q
      ∧ (is_integer (TokenBucket_refillRate config) → (0 <= tokens (value stored))%Q).
Proof.
  intros Hb Hr Hi Hmono Hs. split.
  { intros key stored. cbn. by rewrite lookup_empty. }
  intros n key stored Hlook.
  assert (∀ t clock k s0, TokenBucket_invariant config t s0 → t ≤ reading clock 0 →
            match TokenBucket_checkLimit config clock k s0 with
            | Resolved _ s' => TokenBucket_invariant config (reading clock 0) s'
            | Rejected s' => TokenBucket_invariant config (reading clock 0) s'
            end) as Hstep.
  { intros t clock k s0 Hs0 Hle. by apply (TokenBucket_check_invariant config t). }
  destruct (serve_clock_invariant
              (TokenBucket_checkLimit (backend := MemoryStore_RateLimitStore) config)
              (TokenBucket_invariant config) Hstep
              (take n requests) t0 s (nondecreasing_take t0 n requests Hmono) Hs)
    as [t' Hfinal].
  destruct (Hfinal key stored Hlook) as (_ & Hlow & Hhigh & Hint).
  split; [done|]. split; [done|]. intros Hrate. by destruct (Hint Hrate).
Qed.

Lemma TokenBucket_tokens_bounded_witness :
  TokenBucket_invariant tokenBucketDemo 0 Memory.empty
  ∧ ∀ n key stored,
      bucketStates (serve (TokenBucket_checkLimit tokenBucketDemo)
                      (take n [at_time 0 "client"; at_time 500 "client";
                               at_time 3000 "client"])
                      Memory.empty).2 !! key
        = Some stored →
      (- (1) <= tokens (value stored))%Q
      ∧ (tokens (value stored) <= inject_Z (TokenBucket_bucketSize tokenBucketDemo))%Q
      ∧ (is_integer (TokenBucket_refillRate tokenBucketDemo) →
         (0 <= tokens (value stored))%Q).
Proof.
  apply (TokenBucket_tokens_bounded tokenBucketDemo
           [at_time 0 "client"; at_time 500 "client"; at_time 3000 "client"] 0 Memory.empty).
  - vm_compute. discriminate.
  - reflexivity.
  - reflexivity.
  - simpl. lia.
  - intros key stored. cbn. rewrite lookup_empty. discriminate.
Defined.

(** Half a token per second: two checks at [t = 0] empty the bucket, the
    check at [t = 1000] finds half a token, is allowed, and leaves minus
    one half. *)
Lemma tokens_never_negative_counterexample :
  1 ≤ TokenBucket_bucketSize halfTokenBucket
  ∧ (0 < TokenBucket_refillRate halfTokenBucket)%Q
  ∧ (0 < TokenBucket_refillInterval halfTokenBucket)%Q
  ∧ nondecreasing 0 [at_time 0 "client"; at_time 0 "client"; at_time 1000 "client"]
  ∧ ∃ results s' r stored,
      serve (TokenBucket_checkLimit halfTokenBucket)
        [at_time 0 "client"; at_time 0 "client"; at_time 1000 "client"] Memory.empty
        = (results, s')
      ∧ results !! 2%nat = Some (Some r)
      ∧ allowed r = true
      ∧ bucketStates s' !! "client" = Some stored
      ∧ (tokens (value stored) == - (1 # 2))%Q
      ∧ (tokens (value stored) < 0)%Q.
Proof.
  split; [vm_compute; discriminate|]. split; [reflexivity|]. split; [reflexivity|].
  split; [simpl; lia|].
  eexists _, _, _, _. split; [vm_compute; reflexivity|].
  split; [reflexivity|]. split; [reflexivity|]. split; [vm_compute; reflexivity|].
  split; reflexivity.
Qed.

(** ** The sliding window log *)

Lemma SlidingWindowLog_result_allowed config now ts :
  allowed (SlidingWindowLog_result config now ts)
  = (Z.of_nat (length ts) <? maxRequests config).
Proof. reflexivity. Qed.

(** One check for the key itself. *)
Lemma SlidingWindowLog_step config key t times now (s : MemoryStore) :
  SlidingWindowLog_invariant config key t times s →
  limit_respected config times →
  t ≤ now →
  let r := SlidingWindowLog_result config now (SlidingWindowLog_seen config now s key) in
  let times' := if allowed r then times ++ [now] else times in
  SlidingWindowLog_invariant config key now times'
    (SlidingWindowLog_store_after config now key s)
  ∧ limit_respected config times'.
Proof.
  intros [Hpast Hentry] Hlimit Hle r times'. subst r times'.
  rewrite SlidingWindowLog_result_allowed.
  assert (Forall (λ u, u ≤ now) times) as Hpast'.
  { eapply Forall_impl; [exact Hpast|]. simpl. intros; lia. }
  unfold SlidingWindowLog_store_after, SlidingWindowLog_seen.
  rewrite SlidingWindowLog_result_allowed.
  destruct (Memory.live now (timestamps s) key) as [stored|] eqn:Hlive.
  - (* a live entry: the check sees its timestamps inside the window *)
    apply live_Some in Hlive as [Hlook Hexp]. rewrite Hlook in Hentry.
    destruct Hentry as [Hout Hdom].
    set (seen := List.filter (λ ts, now - windowMs config <=? ts) (value stored)).
    assert (∀ m, now - windowMs config < m →
                 (count_from m times ≤ count_from m seen)%nat) as Hseen.
    { intros m Hm. subst seen. rewrite count_from_filter by lia. apply Hdom. lia. }
    destruct (Z.ltb_spec (Z.of_nat (length seen)) (maxRequests config)) as [Hroom|Hfull].
    + split; [split|].
      * apply Forall_app. split; [done|]. by apply Forall_singleton.
      * cbn [timestamps Memory.with_timestamps]. rewrite lookup_insert_eq.
        cbn [value expiresAt]. split.
        -- apply Forall_app. split; [|apply Forall_singleton; lia].
           eapply Forall_impl; [exact Hpast'|]. simpl. intros; lia.
        -- intros m Hm. rewrite !count_from_app.
           specialize (Hseen m Hm). lia.
      * intros a. rewrite count_in_snoc.
        destruct (Z.leb_spec a now) as [Ha|Ha]; [|specialize (Hlimit a); simpl; lia].
        destruct (Z.ltb_spec now (a + windowMs config)) as [Hb|Hb];
          [|specialize (Hlimit a); simpl; lia].
        simpl. pose proof (count_in_le_from a (a + windowMs config) times).
        specialize (Hseen a ltac:(lia)).
        pose proof (count_from_length a seen). lia.
    + split; [split|]; [done | | done].
      cbn [timestamps Memory.with_timestamps]. rewrite lookup_insert_eq.
      cbn [value expiresAt]. split; [done|]. exact Hseen.
  - (* no live entry: nothing allowed is younger than a window *)
    assert (∀ m, now - windowMs config < m → count_from m times = 0%nat) as Hnone.
    { intros m Hm. apply live_None in Hlive as [Hlook|(sv & Hlook & Hexp)];
        rewrite Hlook in Hentry.
      - by subst times.
      - destruct Hentry as [Hout _].
        apply (count_from_none m (now - windowMs config)); [|done].
        eapply Forall_impl; [exact Hout|]. simpl. intros; lia. }
    simpl length.
    destruct (Z.ltb_spec (Z.of_nat 0) (maxRequests config)) as [Hroom|Hfull].
    + split; [split|].
      * apply Forall_app. split; [done|]. by apply Forall_singleton.
      * cbn [timestamps Memory.with_timestamps]. rewrite lookup_insert_eq.
        cbn [value expiresAt]. split.
        -- apply Forall_app. split; [|apply Forall_singleton; lia].
           eapply Forall_impl; [exact Hpast'|]. simpl. intros; lia.
        -- intros m Hm. rewrite count_from_app, (Hnone m Hm). simpl. lia.
      * intros a. rewrite count_in_snoc.
        destruct (Z.leb_spec a now) as [Ha|Ha]; [|specialize (Hlimit a); simpl; lia].
        destruct (Z.ltb_spec now (a + windowMs config)) as [Hb|Hb];
          [|specialize (Hlimit a); simpl; lia].
        simpl. pose proof (count_in_le_from a (a + windowMs config) times).
        rewrite (Hnone a) in *; lia.
    + split; [split|]; [done | | done].
      destruct (timestamps s !! key) as [sv|]; [|done].
      destruct Hentry as [Hout Hdom]. split; [done|].
      intros m Hm. apply Hdom. lia.
Qed.

(** One check for another key leaves the entry alone. *)
Lemma SlidingWindowLog_step_other config key other t times now (s : MemoryStore) :
  other ≠ key →
  SlidingWindowLog_invariant config key t times s →
  t ≤ now →
  SlidingWindowLog_invariant config key now times
    (SlidingWindowLog_store_after config now other s).
Proof.
  intros Hne [Hpast Hentry] Hle.
  assert (timestamps (SlidingWindowLog_store_after config now other s) !! key
          = timestamps s !! key) as Hsame.
  { unfold SlidingWindowLog_store_after.
    destruct (Memory.live now (timestamps s) other);
      [|destruct (allowed _); [|done]];
      cbn [timestamps Memory.with_timestamps]; by rewrite lookup_insert_ne. }
  split.
  - eapply Forall_impl; [exact Hpast|]. simpl. intros; lia.
  - rewrite Hsame. destruct (timestamps s !! key) as [sv|]; [|done].
    destruct Hentry as [Hout Hdom]. split; [done|]. intros m Hm. apply Hdom. lia.
Qed.

Lemma stands_still_steady t : stands_still (steady t).
Proof. intros i. reflexivity. Qed.

Lemma SlidingWindowLog_history config key requests :
  ∀ t times (s : MemoryStore),
    Forall (λ rq : Clock * string, stands_still rq.1) requests →
    nondecreasing t requests →
    SlidingWindowLog_invariant config key t times s →
    limit_respected config times →
    limit_respected config
      (times ++ allowed_times key requests
                  (serve (SlidingWindowLog_checkLimit config) requests s).1).
Proof.
  induction requests as [|[clock k] rest IH]; intros t times s Hstill Hmono Hinv Hlimit.
  - simpl. by rewrite app_nil_r.
  - apply Forall_cons in Hstill as [Hclock Hstill]. cbn [fst] in Hclock.
    destruct Hmono as [Hle Hmono]. rewrite serve_cons.
    rewrite Memory_SlidingWindowLog_checkLimit by done. cbn [fst allowed_times].
    set (now := reading clock 0) in *.
    destruct (decide (k = key)) as [->|Hne].
    + rewrite bool_decide_eq_true_2 by done. cbn [andb].
      destruct (SlidingWindowLog_step config key t times now s Hinv Hlimit Hle)
        as [Hinv' Hlimit'].
      destruct (allowed _).
      * replace (times ++ now :: allowed_times key rest
                   (serve (SlidingWindowLog_checkLimit config) rest
                      (SlidingWindowLog_store_after config now key s)).1)
          with ((times ++ [now]) ++ allowed_times key rest
                   (serve (SlidingWindowLog_checkLimit config) rest
                      (SlidingWindowLog_store_after config now key s)).1)
          by (by rewrite <- app_assoc).
        by apply (IH now).
      * by apply (IH now).
    + rewrite bool_decide_eq_false_2 by done. cbn [andb].
      apply (IH now); [done | done | | done].
      by apply (SlidingWindowLog_step_other config key k t).
Qed.

(** While no check sees the clock advance between its own reading and
    the store's, the limit holds on the in-memory store: in any history
    of sliding-window-log checks whose clock never runs backwards, from
    any store, every window of [windowMs] milliseconds
    ([a <= t < a + windowMs]) holds at most [maxRequests] allowed checks
    for a key.  Such a check is allowed exactly when fewer than
    [maxRequests] timestamps [>= now - windowMs] come back from the store,
    an allowed check leaves those timestamps with [now] appended, and a
    blocked check appends nothing. *)
Theorem SlidingWindowLog_limit_per_window config key requests t0 (s : MemoryStore) :
  0 ≤ maxRequests config →
  Forall (λ rq : Clock * string, stands_still rq.1) requests →
  nondecreasing t0 requests →
  (∀ a, count_in a (a + windowMs config)
          (allowed_times key requests
             (serve (SlidingWindowLog_checkLimit config) requests s).1)
        ≤ maxRequests config)
  ∧ (∀ clock s0,
       stands_still clock →
       let now := reading clock 0 in
       let seen := SlidingWindowLog_seen config now s0 key in
       Memory.getTimestamps now key (now - windowMs config) s0 = Resolved seen s0
       ∧ ∃ r s1,
           SlidingWindowLog_checkLimit config clock key s0 = Resolved r s1
           ∧ (allowed r = true ↔ Z.of_nat (length seen) < maxRequests config)
           ∧ (allowed r = true →
              value <$> timestamps s1 !! key = Some (seen ++ [now]))
           ∧ (allowed r = false →
              value <$> timestamps s1 !! key = Some seen
              ∨ timestamps s1 = timestamps s0)).
Proof.
  intros Hmax Hstill Hmono. split.
  - apply (SlidingWindowLog_history config key requests t0 [] s Hstill Hmono).
    + split; [constructor|]. destruct (timestamps s !! key); [|done].
      split; [constructor|]. intros m _. unfold count_from. simpl. lia.
    + intros a. unfold count_in. simpl. lia.
  - intros clock s0 Hclock now seen. split.
    { subst seen. unfold Memory.getTimestamps, SlidingWindowLog_seen.
      by destruct (Memory.live now (timestamps s0) key). }
    rewrite Memory_SlidingWindowLog_checkLimit by done. eexists _, _.
    split; [reflexivity|]. fold now. fold seen.
    rewrite SlidingWindowLog_result_allowed.
    split; [apply Z.ltb_lt|].
    unfold SlidingWindowLog_store_after. fold seen.
    rewrite SlidingWindowLog_result_allowed.
    destruct (Z.of_nat (length seen) <? maxRequests config) eqn:Hallowed.
    + split; [intros _ | intros [=]].
      assert (seen ++ [now] = [now] ∨ is_Some (Memory.live now (timestamps s0) key))
        as Hcase.
      { subst seen. unfold SlidingWindowLog_seen.
        destruct (Memory.live now (timestamps s0) key); [right; eauto | by left]. }
      destruct (Memory.live now (timestamps s0) key) as [stored|] eqn:Hlive;
        cbn [timestamps Memory.with_timestamps]; rewrite lookup_insert_eq; cbn.
      * done.
      * destruct Hcase as [->|[? [=]]]. done.
    + split; [intros [=] | intros _].
      destruct (Memory.live now (timestamps s0) key) as [stored|] eqn:Hlive.
      * left. cbn [timestamps Memory.with_timestamps]. by rewrite lookup_insert_eq.
      * by right.
Qed.

Lemma SlidingWindowLog_limit_per_window_witness :
  (∀ a, count_in a (a + windowMs slidingWindowLogDemo)
          (allowed_times "client" scenarioS2
             (serve (SlidingWindowLog_checkLimit slidingWindowLogDemo) scenarioS2
                Memory.empty).1)
        ≤ maxRequests slidingWindowLogDemo)
  ∧ (∀ clock s0,
       stands_still clock →
       let now := reading clock 0 in
       let seen := SlidingWindowLog_seen slidingWindowLogDemo now s0 "client" in
       Memory.getTimestamps now "client" (now - windowMs slidingWindowLogDemo) s0
         = Resolved seen s0
       ∧ ∃ r s1,
           SlidingWindowLog_checkLimit slidingWindowLogDemo clock "client" s0
             = Resolved r s1
           ∧ (allowed r = true
              ↔ Z.of_nat (length seen) < maxRequests slidingWindowLogDemo)
           ∧ (allowed r = true →
              value <$> timestamps s1 !! "client" = Some (seen ++ [now]))
           ∧ (allowed r = false →
              value <$> timestamps s1 !! "client" = Some seen
              ∨ timestamps s1 = timestamps s0)).
Proof.
  apply (SlidingWindowLog_limit_per_window slidingWindowLogDemo "client" scenarioS2 0
           Memory.empty).
  - vm_compute. discriminate.
  - repeat (constructor; [intros i; reflexivity|]). constructor.
  - simpl. lia.
Defined.

(** Scenario S2 itself: the first five requests are allowed, the five that
    follow 200 ms later are all blocked. *)
Example scenarioS2_decisions :
  allowed_times "client" scenarioS2
    (serve (SlidingWindowLog_checkLimit slidingWindowLogDemo) scenarioS2 Memory.empty).1
  = [9900; 9900; 9900; 9900; 9900].
Proof. vm_compute. reflexivity. Qed.

(** C2 (where the code departs from it).  The log of a key lives for
    [windowMs] milliseconds from the store's reading of the clock at the
    last [addTimestamp], and the store tests that against its own reading,
    taken after [checkLimit] took the one it computes the window from.
    One request per ten seconds, a request at 0, and a second one that
    reads 9999 itself while the store reads 10000: the store has dropped
    the log, both checks are allowed, and the window [0, 10000) holds two
    allowed checks. *)
Theorem SlidingWindowLog_limit_exceeded :
  let config := createConfig 10000 1 SLIDING_WINDOW_LOG in
  let ticking := {| reading := fun i => match i with O => 9999 | _ => 10000 end |} in
  let history := [at_time 0 "client"; (ticking, "client")] in
  let times :=
    allowed_times "client" history
      (serve (SlidingWindowLog_checkLimit config) history Memory.empty).1 in
  nondecreasing 0 history
  ∧ times = [0; 9999]
  ∧ count_in 0 (0 + windowMs config) times = 2
  ∧ maxRequests config = 1
  ∧ ¬ limit_respected config times.
Proof.
  cbv zeta. split; [simpl; lia|].
  assert (allowed_times "client"
            [at_time 0 "client";
             ({| reading := fun i => match i with O => 9999 | _ => 10000 end |}, "client")]
            (serve (SlidingWindowLog_checkLimit (createConfig 10000 1 SLIDING_WINDOW_LOG))
               [at_time 0 "client";
                ({| reading := fun i => match i with O => 9999 | _ => 10000 end |},
                 "client")] Memory.empty).1
          = [0; 9999]) as -> by (vm_compute; reflexivity).
  split; [reflexivity|]. split; [reflexivity|]. split; [reflexivity|].
  intros Hlimit. specialize (Hlimit 0). vm_compute in Hlimit. by apply Hlimit.
Qed.
